(** * campfinder: the availability resolution of [main.py]

    A shallow embedding of [get_availability] (src/main.py): the expansion
    of a date range into night keys, the month anchors that are fetched,
    the merge of the monthly payloads, the classification of every site and
    the aggregate that the handler returns.

    Conventions.
    - A [datetime.datetime] at midnight is represented by its proleptic
      Gregorian ordinal ([datetime.toordinal]); the civil fields are
      recovered with CPython's [_ord2ymd] and put back with [_ymd2ord].
    - A Python [dict] that is only read through [get] / [in] is a [gmap];
      [all_avail_data], whose iteration order decides the order of the
      output lists, is an insertion-ordered association list.
    - The upstream service is an oracle from the URL and the [start_date]
      parameter of a request to what the [try] block gets back; the handler
      returns the aggregate together with the requests it sent, in order.
      A payload has the types of the upstream contract: a site record is
      an object, its availabilities an object of strings. Other payloads,
      on which lines 128-134 raise outside the [try], are not represented;
      what is stated about a response is stated for the requests that the
      handler answers.
    - [strftime] is that of CPython on glibc: [%Y] is not padded, so the
      key of a night before the year 1000 has a year of fewer than four
      digits, which [strptime] of line 101 does not read back.
    - The claims of the specification are about the aggregate, and are
      stated on [get_availability], which returns it as a [gmap]. The
      response itself (lines 150-195) is [Ordered.get_availability]: the
      same handler with [results] in insertion order, the walk over the
      frames and the page.
    - Strings are ASCII strings: [str.lower] and the digits of [strptime]
      are those of ASCII, as in the names of the directory and in the
      dates that [strftime] writes. *)

From Stdlib Require Import ZArith Lia List Bool String Ascii DecimalString.
From stdpp Require Import gmap strings list fin_maps sorting.

Local Open Scope string_scope.
Local Open Scope Z_scope.

(** ** The calendar of [datetime] *)

Module Calendar.

(** [_is_leap] *)
Definition is_leap (year : Z) : bool :=
  (year mod 4 =? 0) && (negb (year mod 100 =? 0) || (year mod 400 =? 0)).

(** [_days_before_year] *)
Definition days_before_year (year : Z) : Z :=
  let y := year - 1 in y * 365 + y / 4 - y / 100 + y / 400.

(** [_DAYS_IN_MONTH], indexed from 1 *)
Definition DAYS_IN_MONTH (month : Z) : Z :=
  match month with
  | 1 => 31 | 2 => 28 | 3 => 31 | 4 => 30 | 5 => 31 | 6 => 30
  | 7 => 31 | 8 => 31 | 9 => 30 | 10 => 31 | 11 => 30 | 12 => 31
  | _ => -1
  end.

(** [_DAYS_BEFORE_MONTH], indexed from 1 *)
Definition DAYS_BEFORE_MONTH (month : Z) : Z :=
  match month with
  | 1 => 0 | 2 => 31 | 3 => 59 | 4 => 90 | 5 => 120 | 6 => 151
  | 7 => 181 | 8 => 212 | 9 => 243 | 10 => 273 | 11 => 304 | 12 => 334
  | _ => -1
  end.

Definition Z_of_bool (b : bool) : Z := if b then 1 else 0.

(** [_days_in_month] *)
Definition days_in_month (year month : Z) : Z :=
  if (month =? 2) && is_leap year then 29 else DAYS_IN_MONTH month.

(** [_days_before_month] *)
Definition days_before_month (year month : Z) : Z :=
  DAYS_BEFORE_MONTH month + Z_of_bool ((2 <? month) && is_leap year).

(** [_ymd2ord] *)
Definition ymd2ord (year month day : Z) : Z :=
  days_before_year year + days_before_month year month + day.

Definition DI400Y : Z := 146097.
Definition DI100Y : Z := 36524.
Definition DI4Y : Z := 1461.

(** The tail of [_ord2ymd]: month and day from the zero-based day of the
    year. *)
Definition month_day (leapyear : bool) (n : Z) : Z * Z :=
  let month := Z.shiftr (n + 50) 5 in
  let preceding := DAYS_BEFORE_MONTH month + Z_of_bool ((2 <? month) && leapyear) in
  if n <? preceding then
    let month' := month - 1 in
    let preceding' :=
      preceding - (DAYS_IN_MONTH month' + Z_of_bool ((month' =? 2) && leapyear)) in
    (month', n - preceding' + 1)
  else (month, n - preceding + 1).

(** [_ord2ymd] *)
Definition ord2ymd (ordinal : Z) : Z * Z * Z :=
  let n := ordinal - 1 in
  let n400 := n / DI400Y in
  let n := n mod DI400Y in
  let year := n400 * 400 + 1 in
  let n100 := n / DI100Y in
  let n := n mod DI100Y in
  let n4 := n / DI4Y in
  let n := n mod DI4Y in
  let n1 := n / 365 in
  let n := n mod 365 in
  let year := year + (n100 * 100 + n4 * 4 + n1) in
  if (n1 =? 4) || (n100 =? 4) then (year - 1, 12, 31)
  else
    let leapyear := (n1 =? 3) && (negb (n4 =? 24) || (n100 =? 3)) in
    let '(month, day) := month_day leapyear n in
    (year, month, day).

Definition MINYEAR : Z := 1.
Definition MAXYEAR : Z := 9999.
(** [datetime.max.toordinal()] *)
Definition MAXORDINAL : Z := 3652059.

(** The field checks of the [datetime] constructor. *)
Definition valid_ymd (year month day : Z) : bool :=
  (MINYEAR <=? year) && (year <=? MAXYEAR) &&
  (1 <=? month) && (month <=? 12) &&
  (1 <=? day) && (day <=? days_in_month year month).

Definition valid_ordinal (o : Z) : Prop := 1 <= o <= MAXORDINAL.

End Calendar.

Import Calendar.

(** ** [strftime], [strptime] and the other string operations *)

Module Text.

Definition digit_char (d : Z) : ascii := ascii_of_N (48 + Z.to_N d).

Definition digit_of (c : ascii) : option Z :=
  let n := Z.of_N (N_of_ascii c) in
  if (48 <=? n) && (n <=? 57) then Some (n - 48) else None.

(** [%m], [%d]: two digits, zero padded. *)
Definition zpad2 (n : Z) (rest : string) : string :=
  String (digit_char (n / 10)) (String (digit_char (n mod 10)) rest).

(** Four digits, zero padded: what [%Y] prints from the year 1000 on. *)
Definition zpad4 (n : Z) (rest : string) : string :=
  String (digit_char (n / 1000)) (String (digit_char (n / 100 mod 10))
    (zpad2 (n mod 100) rest)).

(** [str(n)] of a non-negative integer. *)
Definition str_nat (n : nat) : string :=
  DecimalString.NilZero.string_of_uint (Nat.to_uint n).

(** [%Y] of [strftime] for the years of a [datetime], 1 to 9999: CPython
    hands the directive to the C library, and glibc prints the year in
    decimal without padding, so a year below 1000 has fewer than four
    digits. *)
Definition fmt_Y (year : Z) (rest : string) : string :=
  if year <? 10 then String (digit_char year) rest
  else if year <? 100 then zpad2 year rest
  else if year <? 1000 then String (digit_char (year / 100)) (zpad2 (year mod 100) rest)
  else zpad4 year rest.

(** [strftime] with a format [%Y-%m-%d<suffix>]. *)
Definition strftime_ymd (suffix : string) (ordinal : Z) : string :=
  let '(y, m, d) := ord2ymd ordinal in
  fmt_Y y (String "-" (zpad2 m (String "-" (zpad2 d suffix)))).

(** [s.split("T")[0]] *)
Fixpoint split_T_0 (s : string) : string :=
  match s with
  | EmptyString => EmptyString
  | String c rest => if Ascii.eqb c "T" then EmptyString else String c (split_T_0 rest)
  end.

(** The directive [%Y] of [_strptime]: the pattern [\d\d\d\d]. *)
Definition parse_Y (s : string) : option (Z * string) :=
  match s with
  | String a (String b (String c (String d rest))) =>
      match digit_of a, digit_of b, digit_of c, digit_of d with
      | Some a, Some b, Some c, Some d => Some (a * 1000 + b * 100 + c * 10 + d, rest)
      | _, _, _, _ => None
      end
  | _ => None
  end.

(** The first two characters as digits. *)
Definition two_digits (s : string) : option (Z * Z * string) :=
  match s with
  | String a (String b rest) =>
      match digit_of a, digit_of b with
      | Some a, Some b => Some (a, b, rest)
      | _, _ => None
      end
  | _ => None
  end.

(** The alternative [[1-9]]. *)
Definition one_digit (s : string) : option (Z * string) :=
  match s with
  | String a rest =>
      match digit_of a with
      | Some a => if 1 <=? a then Some (a, rest) else None
      | None => None
      end
  | _ => None
  end.

(** The directive [%m]: [1[0-2]|0[1-9]|[1-9]], alternatives in order. *)
Definition parse_m (s : string) : option (Z * string) :=
  match two_digits s with
  | Some (a, b, rest) =>
      if ((a =? 1) && (b <=? 2)) || ((a =? 0) && (1 <=? b))
      then Some (10 * a + b, rest) else one_digit s
  | None => one_digit s
  end.

(** The directive [%d]: [3[0-1]|[1-2]\d|0[1-9]|[1-9]| [1-9]]. *)
Definition parse_d (s : string) : option (Z * string) :=
  let blank :=
    match s with
    | String " " rest => one_digit rest
    | _ => one_digit s
    end in
  match two_digits s with
  | Some (a, b, rest) =>
      if ((a =? 3) && (b <=? 1)) || ((1 <=? a) && (a <=? 2)) || ((a =? 0) && (1 <=? b))
      then Some (10 * a + b, rest) else blank
  | None => blank
  end.

Definition expect (c : ascii) (s : string) : option string :=
  match s with
  | String c' rest => if Ascii.eqb c c' then Some rest else None
  | EmptyString => None
  end.

(** [datetime.datetime.strptime(s, "%Y-%m-%d")], on ASCII strings: [None]
    stands for the [ValueError] of a string that does not match the
    format, has unconverted data left, or names no day of the calendar. *)
Definition strptime (s : string) : option Z :=
  '(y, s) ← parse_Y s;
  s ← expect "-" s;
  '(m, s) ← parse_m s;
  s ← expect "-" s;
  '(d, s) ← parse_d s;
  match s with
  | EmptyString => if valid_ymd y m d then Some (ymd2ord y m d) else None
  | _ => None
  end.

Definition lower_ascii (c : ascii) : ascii :=
  let n := N_of_ascii c in
  if (65 <=? n)%N && (n <=? 90)%N then ascii_of_N (n + 32) else c.

(** [str.lower], on ASCII strings. *)
Fixpoint lower (s : string) : string :=
  match s with
  | EmptyString => EmptyString
  | String c rest => String (lower_ascii c) (lower rest)
  end.

(** [str.startswith] *)
Definition startswith (s prefix : string) : bool := String.prefix prefix s.

End Text.

Import Text.

(** ** Insertion-ordered dictionaries

    [all_avail_data] is iterated, so its order is kept: an association list
    in which a key occurs once, a new key goes to the end and an existing
    key keeps its place. *)

Module Dict.
Section Dict.
Context {V : Type}.

(** [d.get(k)] *)
Fixpoint get (k : string) (d : list (string * V)) : option V :=
  match d with
  | [] => None
  | (k', v) :: d' => if String.eqb k k' then Some v else get k d'
  end.

(** [d[k] = v] *)
Fixpoint set (k : string) (v : V) (d : list (string * V)) : list (string * V) :=
  match d with
  | [] => [(k, v)]
  | (k', v') :: d' =>
      if String.eqb k k' then (k, v) :: d' else (k', v') :: set k v d'
  end.
End Dict.
End Dict.

(** ** The data of a request *)

(** [CAMPGROUND_LOOKUP], in the order of the literal. *)
Definition CAMPGROUND_LOOKUP : list (string * string) :=
  [ ("232369", "Camp Dick");
    ("232462", "Glacier Basin");
    ("232281", "Olive Ridge");
    ("232368", "Peaceful Valley");
    ("232280", "Kelly Dahl");
    ("232282", "Pawnee Campground");
    ("231862", "Stillwater Campground");
    ("231861", "Green Ridge Campground");
    ("232463", "Moraine Park Campground");
    ("233187", "Aspenglen Campground");
    ("260552", "Timber Creek Campground");
    ("231860", "Arapaho Bay Campground") ].

(** [RECREATION_API_URL.format(campground_id=...)] *)
Definition RECREATION_API_URL (campground_id : string) : string :=
  "https://www.recreation.gov/api/camps/availability/campground/"
    +:+ campground_id +:+ "/month".

(** One value of [month_data["campsites"]], with the types of the
    upstream contract: the keys ["site"] and ["availabilities"] are both
    read with [get], so either may be absent; a site name is a string and
    the availabilities map night keys to status strings. *)
Record site_info := SiteInfo {
  site : option string;
  availabilities : option (gmap string string)
}.

(** What one [client.get(...)] followed by [raise_for_status()] and
    [json()] gives: an exception with its text, or the items of
    [month_data.get("campsites", {})] in the order of the payload. *)
Inductive fetch_result :=
| FetchError (cause : string)
| FetchOk (campsites : list (string * site_info)).

(** The upstream service: URL and [start_date] parameter to result. *)
Definition upstream := string → string → fetch_result.

(** A value of [results]. *)
Inductive entry :=
| ErrorEntry (error : string)
| CampgroundEntry (campground_name : string) (target_dates : list string)
    (fully_available_sites partially_available_sites : list string)
| SiteIndex (all_sites : gmap string string).

(** The variables of the handler that outlive one campground, and the
    requests sent so far. *)
Record state := State {
  results : gmap string entry;
  all_sites : gmap string string;
  requests : list (string * string)
}.

(** ** [get_availability] *)

(** [daterange]; [(end_date - start_date).days] is the difference of the
    ordinals, and [range] of a non-positive number is empty. *)
Definition daterange (start_date end_date : Z) : list string :=
  (λ n, strftime_ymd "T00:00:00Z" (start_date + n))
    <$> seqZ 0 ((end_date - start_date) + 1).

(** [name_to_id = {v.lower(): k for k, v in CAMPGROUND_LOOKUP.items()}] *)
Definition name_to_id : gmap string string :=
  foldl (λ m kv, <[lower kv.2 := kv.1]> m) ∅ CAMPGROUND_LOOKUP.

(** [dt.replace(day=1)] *)
Definition replace_day_1 (ordinal : Z) : Z :=
  let '(y, m, _) := ord2ymd ordinal in ymd2ord y m 1.

(** [datetime.datetime.strptime(d.split("T")[0], "%Y-%m-%d")]: the date
    that a night key stands for. *)
Definition key_date (d : string) : option Z := strptime (split_T_0 d).

(** [sorted(set(...))] of line 101; [None] when a [strptime] raises. *)
Definition months_of (target_dates : list string) : option (list Z) :=
  anchors ← mapM (λ d, replace_day_1 <$> key_date d) target_dates;
  Some (merge_sort Z.le (elements (list_to_set anchors : gset Z))).

(** [a.update(b)] *)
Definition update (a b : gmap string string) : gmap string string := b ∪ a.

(** The loop over [month_data["campsites"]] (lines 114-118). The second
    component is the text of the exception that stopped it, if any: the
    [KeyError] of [all_avail_data[site_id]["availabilities"]] when the
    stored record has no such key. What was merged before stays merged. *)
Fixpoint merge_campsites (all_avail_data : list (string * site_info))
    (campsites : list (string * site_info))
  : list (string * site_info) * option string :=
  match campsites with
  | [] => (all_avail_data, None)
  | (site_id, site_info) :: rest =>
      match Dict.get site_id all_avail_data with
      | None => merge_campsites (Dict.set site_id site_info all_avail_data) rest
      | Some stored =>
          match availabilities stored with
          | None => (all_avail_data, Some "'availabilities'")
          | Some avail =>
              let avail' := update avail (default ∅ (availabilities site_info)) in
              merge_campsites
                (Dict.set site_id (SiteInfo (site stored) (Some avail')) all_avail_data)
                rest
          end
      end
  end.

(** The body of the [try] for one response (lines 110-118): the merged
    data and the exception that left the block, if any. *)
Definition merge_month (all_avail_data : list (string * site_info)) (response : fetch_result)
  : list (string * site_info) * option string :=
  match response with
  | FetchError e => (all_avail_data, Some e)
  | FetchOk campsites => merge_campsites all_avail_data campsites
  end.

(** The body of [for month_date in months] (lines 105-121): the [except]
    clause stores the error and goes on with the next month. *)
Definition fetch_month (fetch : upstream) (campgroundId : string)
    (acc : list (string * site_info) * state) (month_date : Z)
  : list (string * site_info) * state :=
  let '(all_avail_data, st) := acc in
  let month := strftime_ymd "T00:00:00.000Z" month_date in
  let avail_url := RECREATION_API_URL campgroundId in
  let st := State (results st) (all_sites st) ((requests st ++ [(avail_url, month)])%list) in
  match merge_month all_avail_data (fetch avail_url month) with
  | (all_avail_data, None) => (all_avail_data, st)
  | (all_avail_data, Some e) =>
      (all_avail_data,
       State (<[campgroundId :=
                  ErrorEntry ("Failed to fetch month " +:+ month +:+ ": " +:+ e)]> (results st))
             (all_sites st) (requests st))
  end.

(** [all_avail_data] after the responses of the months, in fetch order. *)
Definition merge_months (all_avail_data : list (string * site_info))
    (responses : list fetch_result) : list (string * site_info) :=
  foldl (λ all response, (merge_month all response).1) all_avail_data responses.

(** [site_status] of lines 129-133. *)
Definition site_status_of (site_data : site_info) (target_dates : list string)
  : gmap string string :=
  foldl (λ site_status date,
           let all_avail := default ∅ (availabilities site_data) in
           <[date := default "Missing" (all_avail !! date)]> site_status)
        ∅ target_dates.

Definition is_available (status : string) : bool :=
  startswith status "Available" || startswith status "Open".

(** [available_nights] of line 134; every date read was stored by the loop
    above, so the subscript never raises. *)
Definition available_nights_of (site_data : site_info) (target_dates : list string) : nat :=
  let site_status := site_status_of site_data target_dates in
  length (List.filter (λ date, is_available (site_status !!! date)) target_dates).

Inductive bucket := FullyAvailable | PartiallyAvailable | NotListed.

(** The [if] / [elif] of lines 135-138. *)
Definition bucket_of (available_nights n : nat) : bucket :=
  if Nat.eqb available_nights n then FullyAvailable
  else if Nat.ltb 0 available_nights then PartiallyAvailable
  else NotListed.

Definition site_name_of (site_id : string) (site_data : site_info) : string :=
  default ("Site " +:+ site_id) (site site_data).

Definition summary (site_name : string) (available_nights : nat) : string :=
  site_name +:+ " (" +:+ str_nat available_nights +:+ " nights)".

(** The body of [for site_id, site_data in all_avail_data.items()]. *)
Definition classify_site (target_dates : list string)
    (acc : list string * list string * gmap string string)
    (item : string * site_info)
  : list string * list string * gmap string string :=
  let '(fully_available_sites, partially_available_sites, all_sites) := acc in
  let '(site_id, site_data) := item in
  let site_name := site_name_of site_id site_data in
  let available_nights := available_nights_of site_data target_dates in
  let all_sites := <[site_id := site_name]> all_sites in
  match bucket_of available_nights (length target_dates) with
  | FullyAvailable =>
      ((fully_available_sites ++ [summary site_name available_nights])%list,
       partially_available_sites, all_sites)
  | PartiallyAvailable =>
      (fully_available_sites,
       (partially_available_sites ++ [summary site_name available_nights])%list, all_sites)
  | NotListed => (fully_available_sites, partially_available_sites, all_sites)
  end.

Definition campground_lookup : gmap string string := list_to_map CAMPGROUND_LOOKUP.

(** The body of [for name in campgroundName] (lines 97-146); [None] is an
    exception that nothing catches. *)
Definition handle_name (fetch : upstream) (target_dates : list string)
    (st : state) (name : string) : option state :=
  let unknown :=
    State (<[name := ErrorEntry "Unknown campground name"]> (results st))
          (all_sites st) (requests st) in
  match name_to_id !! lower name with
  | None => Some unknown
  | Some campgroundId =>
      if String.eqb campgroundId "" then Some unknown else
      months ← months_of target_dates;
      let '(all_avail_data, st) := foldl (fetch_month fetch campgroundId) ([], st) months in
      let campground_name :=
        default ("Campground " +:+ campgroundId) (campground_lookup !! campgroundId) in
      let '(fully_available_sites, partially_available_sites, all_sites) :=
        foldl (classify_site target_dates) ([], [], all_sites st) all_avail_data in
      Some (State (<[campgroundId :=
                       CampgroundEntry campground_name target_dates
                         fully_available_sites partially_available_sites]> (results st))
                  all_sites (requests st))
  end.

Fixpoint handle_names (fetch : upstream) (target_dates : list string)
    (st : state) (campgroundName : list string) : option state :=
  match campgroundName with
  | [] => Some st
  | name :: rest =>
      st ← handle_name fetch target_dates st name;
      handle_names fetch target_dates st rest
  end.

(** [get_availability] up to the choice of the output format: the final
    [results] and the requests that were sent. [None] is an uncaught
    exception: a date that does not parse, or night keys that line 101
    does not read back when a name resolves. *)
Definition get_availability (fetch : upstream) (campgroundName : list string)
    (startDate endDate : string) : option (gmap string entry * list (string * string)) :=
  start ← strptime startDate;
  end_ ← strptime endDate;
  let target_dates := daterange start end_ in
  st ← handle_names fetch target_dates (State ∅ ∅ []) campgroundName;
  Some (<["all_sites" := SiteIndex (all_sites st)]> (results st), requests st).

(** ** The merge rule in the words of the specification

    The records of one site in the responses, in fetch order; a response
    that failed has none. *)
Definition site_records (site_id : string) (responses : list fetch_result) : list site_info :=
  responses ≫= λ response,
    match response with
    | FetchError _ => []
    | FetchOk campsites =>
        omap (λ item : string * site_info,
                if String.eqb site_id item.1 then Some item.2 else None) campsites
    end.

(** The night-to-status mapping of a record, empty when the key is absent. *)
Definition availabilities_of (site_data : site_info) : gmap string string :=
  default ∅ (availabilities site_data).

(** The union of the mappings, a later one overwriting an earlier one. *)
Definition union_later_wins (mappings : list (gmap string string)) : gmap string string :=
  foldl update ∅ mappings.

(** Every record of every response carries its ["availabilities"]. *)
Definition well_formed (responses : list fetch_result) : Prop :=
  ∀ campsites site_id site_data,
    FetchOk campsites ∈ responses → (site_id, site_data) ∈ campsites →
    is_Some (availabilities site_data).

(** No night key in two of the mappings. *)
Fixpoint pairwise_disjoint (mappings : list (gmap string string)) : Prop :=
  match mappings with
  | [] => True
  | m :: rest => Forall (λ m', m ##ₘ m') rest ∧ pairwise_disjoint rest
  end.

(** ** Auxiliary definitions *)

Definition month_day_ok (leap : bool) (n : Z) : bool :=
  let '(m, d) := month_day leap n in
  (1 <=? m) && (m <=? 12) && (1 <=? d)
  && (d <=? (if (m =? 2) && leap then 29 else DAYS_IN_MONTH m))
  && (DAYS_BEFORE_MONTH m + Z_of_bool ((2 <? m) && leap) + d =? n + 1).

(** Case analysis on every integer comparison [a =? b] of the goal. *)
Ltac case_eqb :=
  repeat match goal with
         | |- context [Z.eqb ?a ?b] => destruct (Z.eqb_spec a b)
         end;
  cbn [andb orb negb].

(** Linear arithmetic with divisions and remainders by constants. *)
Ltac div_lia := Z.div_mod_to_equations; lia.

(** The twelve cases of a month. *)
Ltac month_split m H :=
  let Hc := fresh "Hc" in
  assert (Hc : m = 1 ∨ m = 2 ∨ m = 3 ∨ m = 4 ∨ m = 5 ∨ m = 6 ∨ m = 7 ∨ m = 8 ∨ m = 9
               ∨ m = 10 ∨ m = 11 ∨ m = 12) by lia;
  destruct Hc as [->|[->|[->|[->|[->|[->|[->|[->|[->|[->|[->| ->]]]]]]]]]]].

(** One more record of a site arrives: what the stored record becomes. *)
Definition absorb (stored : option site_info) (site_data : site_info) : option site_info :=
  match stored with
  | None => Some site_data
  | Some s =>
      Some (SiteInfo (site s)
              (Some (update (availabilities_of s) (availabilities_of site_data))))
  end.

Definition records_of (site_id : string) (campsites : list (string * site_info)) :=
  omap (λ item : string * site_info,
          if String.eqb site_id item.1 then Some item.2 else None) campsites.

Definition all_have_availabilities (all_avail_data : list (string * site_info)) : Prop :=
  ∀ k r, Dict.get k all_avail_data = Some r → is_Some (availabilities r).

(** The label of a site when it lands in the bucket [b], nothing otherwise. *)
Definition listed_as (b : bucket) (target_dates : list string) (item : string * site_info)
  : option string :=
  let k := available_nights_of item.2 target_dates in
  match bucket_of k (length target_dates), b with
  | FullyAvailable, FullyAvailable | PartiallyAvailable, PartiallyAvailable =>
      Some (summary (site_name_of item.1 item.2) k)
  | _, _ => None
  end.

Definition index_sites (all_sites : gmap string string)
    (all_avail_data : list (string * site_info)) : gmap string string :=
  foldl (λ idx item, <[item.1 := site_name_of item.1 item.2]> idx) all_sites all_avail_data.

(** The responses that the month loop of one campground receives. *)
Definition responses_of (fetch : upstream) (campgroundId : string) (months : list Z)
  : list fetch_result :=
  (λ a, fetch (RECREATION_API_URL campgroundId) (strftime_ymd "T00:00:00.000Z" a)) <$> months.

Definition requests_of (campgroundId : string) (months : list Z) : list (string * string) :=
  (λ a, (RECREATION_API_URL campgroundId, strftime_ymd "T00:00:00.000Z" a)) <$> months.

Definition campground_name_of (campgroundId : string) : string :=
  default ("Campground " +:+ campgroundId) (campground_lookup !! campgroundId).

(** The success payload of a campground. *)
Definition success_entry (fetch : upstream) (target_dates : list string) (months : list Z)
    (campgroundId : string) : entry :=
  let all_avail_data := merge_months [] (responses_of fetch campgroundId months) in
  CampgroundEntry (campground_name_of campgroundId) target_dates
    (omap (listed_as FullyAvailable target_dates) all_avail_data)
    (omap (listed_as PartiallyAvailable target_dates) all_avail_data).

(** [campgroundId] of line 97 when it is truthy. *)
Definition resolve (name : string) : option string :=
  match name_to_id !! lower name with
  | Some campgroundId => if String.eqb campgroundId "" then None else Some campgroundId
  | None => None
  end.

Definition key_of (name : string) : string := default name (resolve name).

Definition entry_of (fetch : upstream) (target_dates : list string) (months : list Z)
    (name : string) : entry :=
  match resolve name with
  | None => ErrorEntry "Unknown campground name"
  | Some campgroundId => success_entry fetch target_dates months campgroundId
  end.

Definition requests_for (months : list Z) (name : string) : list (string * string) :=
  match resolve name with
  | None => []
  | Some campgroundId => requests_of campgroundId months
  end.

(** The first day of the year 1000: from here on [%Y] prints four digits,
    and line 101 reads the keys back. *)
Definition YEAR_1000 : Z := ymd2ord 1000 1 1.

(** The nights of the range, if there are any, are of the year 1000 or
    later. *)
Definition four_digit_years (start_date end_date : Z) : Prop :=
  end_date < start_date ∨ YEAR_1000 ≤ start_date.

(** Line 101 gives [months], or no requested name gets as far as line
    101. *)
Definition months_known (target_dates names : list string) (months : list Z) : Prop :=
  months_of target_dates = Some months
  ∨ (months_of target_dates = None ∧ months = []
     ∧ Forall (λ name, resolve name = None) names).

(** [all_sites] after a name was handled, and after all of them. *)
Definition index_for (fetch : upstream) (months : list Z)
    (all_sites : gmap string string) (name : string) : gmap string string :=
  match resolve name with
  | None => all_sites
  | Some campgroundId =>
      index_sites all_sites (merge_months [] (responses_of fetch campgroundId months))
  end.

Definition sites_after (fetch : upstream) (months : list Z)
    (all_sites : gmap string string) (names : list string) : gmap string string :=
  foldl (index_for fetch months) all_sites names.

(** The entry under [key] after the names were handled in order: the one
    written by the last name that writes there. *)
Definition entry_after (fetch : upstream) (target_dates : list string) (months : list Z)
    (key : string) (before : option entry) (names : list string) : option entry :=
  foldl (λ acc name,
           if decide (key = key_of name)
           then Some (entry_of fetch target_dates months name) else acc)
        before names.

Definition entry_at (key : string)
    (response : option (gmap string entry * list (string * string))) : option entry :=
  response ≫= λ r, r.1 !! key.

(** The status that line 132 reads for a night. *)
Definition status_of (site_data : site_info) (date : string) : string :=
  default "Missing" (default ∅ (availabilities site_data) !! date).


(** ** Example data *)

(** An upstream service that knows two sites for August 2025, whatever the
    campground, and fails for every other month. *)
Definition demo_fetch : upstream := λ url month,
  if String.eqb month "2025-08-01T00:00:00.000Z" then
    FetchOk [("1", SiteInfo (Some "A1") (Some {[ "2025-08-01T00:00:00Z" := "Available";
                                              "2025-08-02T00:00:00Z" := "Open - x" ]}));
             ("2", SiteInfo (Some "A2") (Some {[ "2025-08-01T00:00:00Z" := "Available";
                                              "2025-08-02T00:00:00Z" := "Reserved" ]}))]
  else FetchError "boom".

(** An upstream service that is down. *)
Definition failing_fetch : upstream := λ _ _, FetchError "503 Service Unavailable".

Definition night1 : string := "2025-08-31T00:00:00Z".
Definition night2 : string := "2025-09-01T00:00:00Z".

(** Two monthly payloads that both know site ["1"]; the payload of
    September repeats the last night of August. *)
Definition august : fetch_result :=
  FetchOk [("1", SiteInfo (Some "A1") (Some {[ night1 := "Reserved" ]}));
           ("2", SiteInfo (Some "A2") (Some {[ night1 := "Available" ]}))].
Definition september : fetch_result :=
  FetchOk [("1", SiteInfo (Some "A1")
                   (Some {[ night1 := "Available"; night2 := "Available" ]}))].
Definition october : fetch_result :=
  FetchOk [("3", SiteInfo None (Some {[ "2025-10-01T00:00:00Z" := "Open" ]}))].

Definition september_only : fetch_result :=
  FetchOk [("1", SiteInfo (Some "A1") (Some {[ night2 := "Available" ]}))].


(** ** Keys in insertion order *)

(** The keys of an insertion-ordered dictionary after [d[k] = v]. *)
Definition add_key (keys : list string) (k : string) : list string :=
  if decide (k ∈ keys) then keys else (keys ++ [k])%list.

(** The elements of a list in the order of their first occurrence. *)
Fixpoint first_occurrences (l : list string) : list string :=
  match l with
  | [] => []
  | x :: l' => x :: filter (λ y, y ≠ x) (first_occurrences l')
  end.

(** The site identifiers of the responses, in fetch order. *)
Definition site_ids (responses : list fetch_result) : list string :=
  responses ≫= λ response,
    match response with
    | FetchError _ => []
    | FetchOk campsites => campsites.*1
    end.

(** ** The response of [get_availability] (lines 150-195)

    The page lists the entries of [results] in the order of the
    dictionary, the order in which its keys were first written. [Ordered]
    is the handler with [results] as an insertion-ordered dictionary; the
    lemmas below relate it to the handler above. *)
Module Ordered.

Record state := State {
  results : list (string * entry);
  all_sites : gmap string string;
  requests : list (string * string)
}.

(** The body of [for month_date in months] (lines 105-121). *)
Definition fetch_month (fetch : upstream) (campgroundId : string)
    (acc : list (string * site_info) * state) (month_date : Z)
  : list (string * site_info) * state :=
  let '(all_avail_data, st) := acc in
  let month := strftime_ymd "T00:00:00.000Z" month_date in
  let avail_url := RECREATION_API_URL campgroundId in
  let st := State (results st) (all_sites st) ((requests st ++ [(avail_url, month)])%list) in
  match merge_month all_avail_data (fetch avail_url month) with
  | (all_avail_data, None) => (all_avail_data, st)
  | (all_avail_data, Some e) =>
      (all_avail_data,
       State (Dict.set campgroundId
                (ErrorEntry ("Failed to fetch month " +:+ month +:+ ": " +:+ e)) (results st))
             (all_sites st) (requests st))
  end.

(** The body of [for name in campgroundName] (lines 97-146). *)
Definition handle_name (fetch : upstream) (target_dates : list string)
    (st : state) (name : string) : option state :=
  let unknown :=
    State (Dict.set name (ErrorEntry "Unknown campground name") (results st))
          (all_sites st) (requests st) in
  match name_to_id !! lower name with
  | None => Some unknown
  | Some campgroundId =>
      if String.eqb campgroundId "" then Some unknown else
      months ← months_of target_dates;
      let '(all_avail_data, st) := foldl (fetch_month fetch campgroundId) ([], st) months in
      let campground_name :=
        default ("Campground " +:+ campgroundId) (campground_lookup !! campgroundId) in
      let '(fully_available_sites, partially_available_sites, all_sites) :=
        foldl (classify_site target_dates) ([], [], all_sites st) all_avail_data in
      Some (State (Dict.set campgroundId
                     (CampgroundEntry campground_name target_dates
                        fully_available_sites partially_available_sites) (results st))
                  all_sites (requests st))
  end.

Fixpoint handle_names (fetch : upstream) (target_dates : list string)
    (st : state) (campgroundName : list string) : option state :=
  match campgroundName with
  | [] => Some st
  | name :: rest =>
      st ← handle_name fetch target_dates st name;
      handle_names fetch target_dates st rest
  end.

(** Lines 88-148: the items of [results] when the response is built. *)
Definition collect_results (fetch : upstream) (campgroundName : list string)
    (startDate endDate : string) : option (list (string * entry)) :=
  start ← strptime startDate;
  end_ ← strptime endDate;
  let target_dates := daterange start end_ in
  st ← handle_names fetch target_dates (State [] ∅ []) campgroundName;
  Some (Dict.set "all_sites" (SiteIndex (all_sites st)) (results st)).

(** What a local variable named [request] holds: [None], or a request
    with its headers (keyed in lower case, as [request.headers] reads
    them). *)
Inductive object :=
| PyNone
| Request (headers : gmap string string).

(** [frame.f_locals] of the handler's own frame when the walk of line 154
    starts, as far as the walk reads it: line 153 has bound the local
    [request] to [None]. *)
Definition own_locals : gmap string object := {[ "request" := PyNone ]}.

(** The loop of lines 154-158 over a frame and its callers. *)
Fixpoint find_request (request : object) (frames : list (gmap string object)) : object :=
  match frames with
  | [] => request
  | f_locals :: f_back =>
      match f_locals !! "request" with
      | Some found => found
      | None => find_request request f_back
      end
  end.

(** [sub in s] *)
Fixpoint contains (s sub : string) : bool :=
  startswith s sub
  || match s with
     | EmptyString => false
     | String _ s' => contains s' sub
     end.

(** The condition of line 160. *)
Definition wants_json (request : object) : bool :=
  match request with
  | PyNone => false
  | Request headers => contains (default "" (headers !! "accept")) "application/json"
  end.

Inductive response :=
| JSONResponse (content : list (string * entry))
| HTMLResponse (content : string).

(** [info.get("campground_name", fallback)] *)
Definition get_campground_name (info : entry) (fallback : string) : string :=
  match info with
  | ErrorEntry _ => fallback
  | CampgroundEntry campground_name _ _ _ => campground_name
  | SiteIndex all_sites => default fallback (all_sites !! "campground_name")
  end.

(** [info['error']] when ["error" in info]. *)
Definition get_error (info : entry) : option string :=
  match info with
  | ErrorEntry error => Some error
  | CampgroundEntry _ _ _ _ => None
  | SiteIndex all_sites => all_sites !! "error"
  end.

(** A string in the place of a list: its characters. *)
Definition characters (s : string) : list string :=
  (λ c, String c EmptyString) <$> list_ascii_of_string s.

(** [info['fully_available_sites']] and [info['partially_available_sites']];
    [None] is the [KeyError]. *)
Definition get_fully_available_sites (info : entry) : option (list string) :=
  match info with
  | ErrorEntry _ => None
  | CampgroundEntry _ _ fully_available_sites _ => Some fully_available_sites
  | SiteIndex all_sites => characters <$> all_sites !! "fully_available_sites"
  end.

Definition get_partially_available_sites (info : entry) : option (list string) :=
  match info with
  | ErrorEntry _ => None
  | CampgroundEntry _ _ _ partially_available_sites => Some partially_available_sites
  | SiteIndex all_sites => characters <$> all_sites !! "partially_available_sites"
  end.

(** Lines 179-185 and 187-193: the list, or [" None<br>"] when it is
    empty. *)
Definition render_sites (html : string) (sites : list string) : string :=
  match sites with
  | [] => html +:+ " None<br>"
  | _ =>
      foldl (λ html site, html +:+ "<li>" +:+ site +:+ "</li>") (html +:+ "<ul>") sites
        +:+ "</ul>"
  end.

(** The body of [for cid, info in results.items()] (lines 166-193);
    [None] is an exception. *)
Definition render_item (html : string) (item : string * entry) : option string :=
  let '(cid, info) := item in
  if String.eqb cid "all_sites" then Some html else
  let campground_url := "https://www.recreation.gov/camping/campgrounds/" +:+ cid in
  let campground_name :=
    default (get_campground_name info cid) (campground_lookup !! cid) in
  match get_error info with
  | Some error =>
      Some (html
              +:+ ("<h2><a href='" +:+ campground_url +:+ "' target='_blank'>"
                     +:+ campground_name +:+ "</a></h2>"
                     +:+ "<p style='color:red;'>" +:+ error +:+ "</p>"))
  | None =>
      let html := html +:+ "<h2><a href='" +:+ campground_url +:+ "' target='_blank'>"
                       +:+ campground_name +:+ "</a></h2>" in
      let html := html +:+ "<b>Fully Available Sites:</b>" in
      fully_available_sites ← get_fully_available_sites info;
      let html := render_sites html fully_available_sites in
      let html := html +:+ "<b>Partially Available Sites:</b>" in
      partially_available_sites ← get_partially_available_sites info;
      Some (render_sites html partially_available_sites)
  end.

(** Lines 163-194. *)
Definition render_html (startDate endDate : string) (results : list (string * entry))
  : option string :=
  let html := "<html><head><title>Availability Results</title></head><body>" in
  let html := html +:+ "<h1>Availability from " +:+ startDate +:+ " to " +:+ endDate +:+ "</h1>" in
  html ← foldl (λ html item, html ≫= λ html, render_item html item) (Some html) results;
  Some (html +:+ "</body></html>").

(** The handler with its response; [f_back] are the frames of its callers,
    innermost first. The query parameter [accept] is never read. *)
Definition get_availability (fetch : upstream) (f_back : list (gmap string object))
    (campgroundName : list string) (startDate endDate : string) : option response :=
  results ← collect_results fetch campgroundName startDate endDate;
  let request := find_request PyNone (own_locals :: f_back) in
  if match request with PyNone => false | Request _ => true end && wants_json request
  then Some (JSONResponse results)
  else HTMLResponse <$> render_html startDate endDate results.

End Ordered.

(** The state of the handler above that an ordered state stands for. *)
Definition to_state (st : Ordered.state) : state :=
  State (list_to_map (Ordered.results st)) (Ordered.all_sites st) (Ordered.requests st).

Definition join (parts : list string) : string := foldr String.append "" parts.

(** The markup of a list of sites. *)
Definition sites_html (sites : list string) : string :=
  match sites with
  | [] => " None<br>"
  | _ => "<ul>" +:+ join ((λ site, "<li>" +:+ site +:+ "</li>") <$> sites) +:+ "</ul>"
  end.

(** The section of the page for the entry under [key]: the link text is
    the name of the directory when [key] is an identifier of it, and
    [key] itself otherwise. *)
Definition section (key : string) (info : entry) : string :=
  "<h2><a href='https://www.recreation.gov/camping/campgrounds/" +:+ key
    +:+ "' target='_blank'>" +:+ default key (campground_lookup !! key) +:+ "</a></h2>"
    +:+ match info with
        | ErrorEntry error => "<p style='color:red;'>" +:+ error +:+ "</p>"
        | CampgroundEntry _ _ fully_available_sites partially_available_sites =>
            "<b>Fully Available Sites:</b>" +:+ sites_html fully_available_sites
              +:+ "<b>Partially Available Sites:</b>"
              +:+ sites_html partially_available_sites
        | SiteIndex _ => ""
        end.

(** The keys of the sections of the page, in its order. *)
Definition section_keys (names : list string) : list string :=
  filter (λ key, key ≠ "all_sites") (first_occurrences (key_of <$> names)).

(** An entry that the page can show under [key]. *)
Definition shown_under (key : string) (info : entry) : Prop :=
  match info with
  | ErrorEntry _ => True
  | CampgroundEntry _ _ _ _ => is_Some (campground_lookup !! key)
  | SiteIndex _ => False
  end.

(** ** The calendar: [_ord2ymd] inverts [_ymd2ord] *)

(** The month table of [_ord2ymd], checked on every day of a year. *)
Lemma month_day_ok_all leap n : 0 <= n < 365 -> month_day_ok leap n = true.
Proof.
  intros Hn.
  assert (H : forallb (fun l => forallb (month_day_ok l) (seqZ 0 365)) [true; false] = true)
    by (vm_compute; reflexivity).
  rewrite forallb_forall in H.
  assert (Hl : In leap [true; false]) by (destruct leap; simpl; auto).
  specialize (H _ Hl). rewrite forallb_forall in H.
  apply H. apply list_elem_of_In, elem_of_seqZ. lia.
Qed.

(** [_ord2ymd] gives a date of the calendar, and [_ymd2ord] takes it back. *)
Lemma ord2ymd_spec o :
  valid_ordinal o ->
  exists y m d, ord2ymd o = (y, m, d) /\ valid_ymd y m d = true /\ ymd2ord y m d = o.
Proof.
  unfold valid_ordinal, MAXORDINAL. intros Ho.
  unfold ord2ymd, DI400Y, DI100Y, DI4Y.
  set (n0 := o - 1).
  pose proof (Z.div_mod n0 146097 ltac:(lia)) as E400.
  pose proof (Z.mod_pos_bound n0 146097 ltac:(lia)) as B400.
  set (n400 := n0 / 146097) in *. set (r := n0 mod 146097) in *.
  pose proof (Z.div_mod r 36524 ltac:(lia)) as E100.
  pose proof (Z.mod_pos_bound r 36524 ltac:(lia)) as B100.
  set (n100 := r / 36524) in *. set (r2 := r mod 36524) in *.
  pose proof (Z.div_mod r2 1461 ltac:(lia)) as E4.
  pose proof (Z.mod_pos_bound r2 1461 ltac:(lia)) as B4.
  set (n4 := r2 / 1461) in *. set (r3 := r2 mod 1461) in *.
  pose proof (Z.div_mod r3 365 ltac:(lia)) as E1.
  pose proof (Z.mod_pos_bound r3 365 ltac:(lia)) as B1.
  set (n1 := r3 / 365) in *. set (r4 := r3 mod 365) in *.
  clearbody n400 r n100 r2 n4 r3 n1 r4. subst n0.
  assert (0 <= n400 <= 24) by lia.
  assert (0 <= n100 <= 4) by lia.
  assert (0 <= n4 <= 24) by lia.
  assert (0 <= n1 <= 4) by lia.
  destruct ((n1 =? 4) || (n100 =? 4)) eqn:Hlast.
  - eexists _, _, _. split; [reflexivity|].
    assert (Hy : n400 * 400 + 1 + (n100 * 100 + n4 * 4 + n1) - 1
                 = 400 * n400 + 100 * n100 + 4 * n4 + n1) by lia.
    rewrite Hy.
    unfold valid_ymd, ymd2ord, days_in_month, days_before_month, days_before_year,
      is_leap, MINYEAR, MAXYEAR.
    simpl DAYS_IN_MONTH. simpl DAYS_BEFORE_MONTH. simpl (12 =? 2). cbn [andb].
    apply orb_true_iff in Hlast.
    assert (Hl : n1 = 4 \/ n100 = 4) by (destruct Hlast as [Hl|Hl]; apply Z.eqb_eq in Hl; auto).
    clear Hlast.
    split.
    + repeat (apply andb_true_iff; split); try apply Z.leb_le; lia.
    + unfold Z_of_bool. change (2 <? 12) with true. case_eqb; div_lia.
  - apply orb_false_iff in Hlast. destruct Hlast as [Hn1 Hn100].
    apply Z.eqb_neq in Hn1, Hn100.
    set (leapyear := (n1 =? 3) && (negb (n4 =? 24) || (n100 =? 3))).
    pose proof (month_day_ok_all leapyear r4 ltac:(lia)) as Hmd.
    unfold month_day_ok in Hmd.
    destruct (month_day leapyear r4) as [m d].
    eexists _, _, _. split; [reflexivity|].
    rewrite !andb_true_iff, !Z.leb_le, Z.eqb_eq in Hmd.
    destruct Hmd as ((((Hm1 & Hm12) & Hd1) & Hdim) & Hsum).
    assert (Hy : n400 * 400 + 1 + (n100 * 100 + n4 * 4 + n1)
                 = 400 * n400 + 100 * n100 + 4 * n4 + n1 + 1) by lia.
    rewrite Hy.
    assert (Hleap : is_leap (400 * n400 + 100 * n100 + 4 * n4 + n1 + 1) = leapyear).
    { unfold is_leap, leapyear. case_eqb; try reflexivity; exfalso; div_lia. }
    unfold valid_ymd, ymd2ord, days_in_month, days_before_month, MINYEAR, MAXYEAR.
    rewrite Hleap.
    split.
    + rewrite !andb_true_iff, !Z.leb_le. repeat split; try lia.
    + unfold days_before_year. div_lia.
Qed.

(** ** Night keys parse back *)

Lemma digit_cases k : 0 <= k <= 9 ->
  k = 0 \/ k = 1 \/ k = 2 \/ k = 3 \/ k = 4 \/ k = 5 \/ k = 6 \/ k = 7 \/ k = 8 \/ k = 9.
Proof. lia. Qed.

Lemma digit_of_digit_char k : 0 <= k <= 9 -> digit_of (digit_char k) = Some k.
Proof.
  intros H.
  destruct (digit_cases k H) as [->|[->|[->|[->|[->|[->|[->|[->|[->| ->]]]]]]]]];
    reflexivity.
Qed.

Lemma digit_char_not_T k : 0 <= k <= 9 -> Ascii.eqb (digit_char k) "T" = false.
Proof.
  intros H.
  destruct (digit_cases k H) as [->|[->|[->|[->|[->|[->|[->|[->|[->| ->]]]]]]]]];
    reflexivity.
Qed.

Lemma two_digits_zpad2 n rest :
  0 <= n <= 99 -> two_digits (zpad2 n rest) = Some (n / 10, n mod 10, rest).
Proof.
  intros H. unfold two_digits, zpad2.
  rewrite !digit_of_digit_char by div_lia. reflexivity.
Qed.

Lemma parse_Y_zpad4 y rest : 0 <= y <= 9999 -> parse_Y (zpad4 y rest) = Some (y, rest).
Proof.
  intros H. unfold parse_Y, zpad4, zpad2.
  rewrite !digit_of_digit_char by div_lia.
  f_equal. f_equal. div_lia.
Qed.

Lemma parse_m_zpad2 m rest : 1 <= m <= 12 -> parse_m (zpad2 m rest) = Some (m, rest).
Proof.
  intros H. unfold parse_m. rewrite two_digits_zpad2 by lia.
  assert (Hc : ((m / 10 =? 1) && (m mod 10 <=? 2)) || ((m / 10 =? 0) && (1 <=? m mod 10)) = true).
  { destruct (Z.eqb_spec (m / 10) 1), (Z.eqb_spec (m / 10) 0),
      (Z.leb_spec (m mod 10) 2), (Z.leb_spec 1 (m mod 10)); cbn; try reflexivity;
      exfalso; div_lia. }
  rewrite Hc. f_equal. f_equal. div_lia.
Qed.

Lemma parse_d_zpad2 d rest : 1 <= d <= 31 -> parse_d (zpad2 d rest) = Some (d, rest).
Proof.
  intros H. unfold parse_d. rewrite two_digits_zpad2 by lia.
  assert (Hc : ((d / 10 =? 3) && (d mod 10 <=? 1)) || ((1 <=? d / 10) && (d / 10 <=? 2))
               || ((d / 10 =? 0) && (1 <=? d mod 10)) = true).
  { destruct (Z.eqb_spec (d / 10) 3), (Z.eqb_spec (d / 10) 0), (Z.leb_spec 1 (d / 10)),
      (Z.leb_spec (d / 10) 2), (Z.leb_spec (d mod 10) 1), (Z.leb_spec 1 (d mod 10));
      cbn; try reflexivity; exfalso; div_lia. }
  rewrite Hc. f_equal. f_equal. div_lia.
Qed.

Lemma split_T_0_zpad2 n rest :
  0 <= n <= 99 -> split_T_0 (zpad2 n rest) = zpad2 n (split_T_0 rest).
Proof.
  intros H. unfold zpad2. cbn [split_T_0].
  rewrite !digit_char_not_T by div_lia. reflexivity.
Qed.

Lemma split_T_0_zpad4 n rest :
  0 <= n <= 9999 -> split_T_0 (zpad4 n rest) = zpad4 n (split_T_0 rest).
Proof.
  intros H. unfold zpad4. cbn [split_T_0].
  rewrite !digit_char_not_T by div_lia.
  rewrite split_T_0_zpad2 by div_lia. reflexivity.
Qed.

Lemma days_in_month_le_31 y m : days_in_month y m <= 31.
Proof.
  unfold days_in_month. destruct ((m =? 2) && is_leap y); [lia|].
  unfold DAYS_IN_MONTH. repeat (destruct m as [|[m|m|]|]; try lia).
Qed.

(** [strptime] reads what [%Y-%m-%d] writes. *)
Lemma strptime_ymd y m d :
  valid_ymd y m d = true ->
  strptime (zpad4 y (String "-" (zpad2 m (String "-" (zpad2 d ""))))) = Some (ymd2ord y m d).
Proof.
  intros Hv. pose proof Hv as Hv'. unfold valid_ymd, MINYEAR, MAXYEAR in Hv'.
  rewrite !andb_true_iff, !Z.leb_le in Hv'.
  destruct Hv' as (((((Hy1 & Hy2) & Hm1) & Hm2) & Hd1) & Hd2).
  pose proof (days_in_month_le_31 y m).
  unfold strptime.
  rewrite parse_Y_zpad4 by lia. cbn [mbind option_bind expect Ascii.eqb Bool.eqb].
  rewrite parse_m_zpad2 by lia. cbn [mbind option_bind expect Ascii.eqb Bool.eqb].
  rewrite parse_d_zpad2 by lia. cbn [mbind option_bind].
  now rewrite Hv.
Qed.

Lemma valid_ymd_bounds y m d :
  valid_ymd y m d = true →
  1 ≤ y ≤ 9999 ∧ 1 ≤ m ≤ 12 ∧ 1 ≤ d ≤ days_in_month y m.
Proof.
  unfold valid_ymd, MINYEAR, MAXYEAR. rewrite !andb_true_iff, !Z.leb_le. lia.
Qed.

Lemma days_before_year_succ y :
  days_before_year (y + 1) = days_before_year y + 365 + Z_of_bool (is_leap y).
Proof.
  unfold days_before_year, is_leap, Z_of_bool. case_eqb; div_lia.
Qed.

Lemma days_before_year_mono y y' : y ≤ y' → days_before_year y ≤ days_before_year y'.
Proof. unfold days_before_year. intros. div_lia. Qed.

Lemma days_before_month_bounds y m :
  1 ≤ m ≤ 12 →
  0 ≤ days_before_month y m ∧
  days_before_month y m + days_in_month y m ≤ 365 + Z_of_bool (is_leap y).
Proof.
  intros Hm. unfold days_before_month, days_in_month.
  month_split m Hm; destruct (is_leap y); cbn; lia.
Qed.

Lemma days_before_month_next y m m' :
  1 ≤ m → m < m' → m' ≤ 12 →
  days_before_month y m + days_in_month y m ≤ days_before_month y m'.
Proof.
  intros H1 H2 H3. unfold days_before_month, days_in_month.
  assert (Hm : 1 ≤ m ≤ 12) by lia. assert (Hm' : 1 ≤ m' ≤ 12) by lia.
  month_split m Hm; month_split m' Hm'; try lia; destruct (is_leap y); cbn; lia.
Qed.

Lemma ymd2ord_bounds y m d :
  valid_ymd y m d = true →
  days_before_year y < ymd2ord y m d ≤ days_before_year (y + 1).
Proof.
  intros (Hy & Hm & Hd)%valid_ymd_bounds.
  pose proof (days_before_month_bounds y m Hm).
  rewrite days_before_year_succ. unfold ymd2ord. lia.
Qed.

Lemma valid_ordinal_ymd2ord y m d : valid_ymd y m d = true → valid_ordinal (ymd2ord y m d).
Proof.
  intros Hv. pose proof (ymd2ord_bounds y m d Hv) as Hb.
  apply valid_ymd_bounds in Hv as (Hy & _).
  pose proof (days_before_year_mono 1 y ltac:(lia)).
  pose proof (days_before_year_mono (y + 1) 10000 ltac:(lia)).
  change (days_before_year 1) with 0 in *. change (days_before_year 10000) with 3652059 in *.
  unfold valid_ordinal, MAXORDINAL. lia.
Qed.

(** Different dates have different ordinals. *)
Lemma ymd2ord_inj y m d y' m' d' :
  valid_ymd y m d = true → valid_ymd y' m' d' = true →
  ymd2ord y m d = ymd2ord y' m' d' → (y, m, d) = (y', m', d').
Proof.
  intros Hv Hv' Heq.
  pose proof (ymd2ord_bounds _ _ _ Hv). pose proof (ymd2ord_bounds _ _ _ Hv').
  apply valid_ymd_bounds in Hv as (Hy & Hm & Hd).
  apply valid_ymd_bounds in Hv' as (Hy' & Hm' & Hd').
  assert (y = y') as <-.
  { destruct (Z.lt_trichotomy y y') as [Hlt|[?|Hlt]]; [|done|].
    - pose proof (days_before_year_mono (y + 1) y' ltac:(lia)). lia.
    - pose proof (days_before_year_mono (y' + 1) y ltac:(lia)). lia. }
  assert (m = m') as <-.
  { unfold ymd2ord in Heq.
    destruct (Z.lt_trichotomy m m') as [Hlt|[?|Hlt]]; [|done|].
    - pose proof (days_before_month_next y m m' ltac:(lia) Hlt ltac:(lia)). lia.
    - pose proof (days_before_month_next y m' m ltac:(lia) Hlt ltac:(lia)). lia. }
  unfold ymd2ord in Heq. f_equal. lia.
Qed.

Lemma ord2ymd_ymd2ord y m d :
  valid_ymd y m d = true → ord2ymd (ymd2ord y m d) = (y, m, d).
Proof.
  intros Hv.
  destruct (ord2ymd_spec _ (valid_ordinal_ymd2ord _ _ _ Hv)) as (y' & m' & d' & -> & Hv' & Heq).
  by apply ymd2ord_inj.
Qed.

Lemma valid_ymd_day_1 y m d : valid_ymd y m d = true → valid_ymd y m 1 = true.
Proof.
  intros (Hy & Hm & Hd)%valid_ymd_bounds.
  unfold valid_ymd, MINYEAR, MAXYEAR. rewrite !andb_true_iff, !Z.leb_le. lia.
Qed.

Lemma replace_day_1_spec o :
  valid_ordinal o →
  ∃ y m d, ord2ymd o = (y, m, d) ∧ ord2ymd (replace_day_1 o) = (y, m, 1)
           ∧ valid_ordinal (replace_day_1 o) ∧ replace_day_1 o ≤ o.
Proof.
  intros Ho. destruct (ord2ymd_spec o Ho) as (y & m & d & Hymd & Hv & Ho').
  exists y, m, d. unfold replace_day_1. rewrite Hymd.
  pose proof (valid_ymd_day_1 _ _ _ Hv) as Hv1.
  split_and!; [done|by apply ord2ymd_ymd2ord|by apply valid_ordinal_ymd2ord|].
  apply valid_ymd_bounds in Hv as (_ & _ & Hd). rewrite <- Ho'. unfold ymd2ord. lia.
Qed.

(** ** The year of a key *)

Lemma digit_char_eq k c : 0 ≤ k ≤ 9 → digit_char k = c → digit_of c = Some k.
Proof. intros Hk <-. by apply digit_of_digit_char. Qed.

Lemma digit_char_inj k k' : 0 ≤ k ≤ 9 → 0 ≤ k' ≤ 9 → digit_char k = digit_char k' → k = k'.
Proof.
  intros Hk Hk' H. apply digit_char_eq in H; [|done].
  rewrite digit_of_digit_char in H by done. congruence.
Qed.

Lemma fmt_Y_zpad4 y rest : 1000 ≤ y → fmt_Y y rest = zpad4 y rest.
Proof.
  intros Hy. unfold fmt_Y.
  destruct (Z.ltb_spec y 10), (Z.ltb_spec y 100), (Z.ltb_spec y 1000); (done || lia).
Qed.

Lemma String_eq c c' s s' : String c s = String c' s' → c = c' ∧ s = s'.
Proof. by intros [= -> ->]. Qed.

(** A year followed by a dash is read in one way only. *)
Lemma fmt_Y_inj y y' r r' :
  1 ≤ y ≤ 9999 → 1 ≤ y' ≤ 9999 →
  fmt_Y y (String "-" r) = fmt_Y y' (String "-" r') → y = y' ∧ r = r'.
Proof.
  intros Hy Hy'. unfold fmt_Y, zpad4, zpad2.
  destruct (Z.ltb_spec y 10), (Z.ltb_spec y 100), (Z.ltb_spec y 1000),
    (Z.ltb_spec y' 10), (Z.ltb_spec y' 100), (Z.ltb_spec y' 1000); try lia;
    intros Heq;
    repeat (apply String_eq in Heq; destruct Heq as [? Heq]);
    repeat match goal with
           | Hc : digit_char _ = digit_char _ |- _ =>
               apply digit_char_inj in Hc; [|div_lia..]
           | Hc : digit_char _ = _ |- _ =>
               apply digit_char_eq in Hc; [discriminate Hc|div_lia]
           | Hc : _ = digit_char _ |- _ => symmetry in Hc
           end;
    (split; [div_lia|congruence]).
Qed.

Lemma zpad2_inj n n' r r' :
  0 ≤ n ≤ 99 → 0 ≤ n' ≤ 99 → zpad2 n r = zpad2 n' r' → n = n' ∧ r = r'.
Proof.
  intros Hn Hn'. unfold zpad2. intros [= H1 H2 ->].
  apply digit_char_inj in H1; [|div_lia..]. apply digit_char_inj in H2; [|div_lia..].
  split; [|done]. div_lia.
Qed.

(** A key stands for one date only. *)
Lemma strftime_ymd_inj suffix o o' :
  valid_ordinal o → valid_ordinal o' →
  strftime_ymd suffix o = strftime_ymd suffix o' → o = o'.
Proof.
  intros Ho Ho'.
  destruct (ord2ymd_spec o Ho) as (y & m & d & Hymd & Hv & <-).
  destruct (ord2ymd_spec o' Ho') as (y' & m' & d' & Hymd' & Hv' & <-).
  unfold strftime_ymd. rewrite Hymd, Hymd'.
  pose proof (days_in_month_le_31 y m). pose proof (days_in_month_le_31 y' m').
  apply valid_ymd_bounds in Hv as (Hy & Hm & Hd).
  apply valid_ymd_bounds in Hv' as (Hy' & Hm' & Hd').
  intros [-> H1]%fmt_Y_inj; [|lia..].
  apply zpad2_inj in H1 as [-> H1]; [|lia..].
  assert (H2 : zpad2 d suffix = zpad2 d' suffix) by congruence.
  apply zpad2_inj in H2 as [-> _]; [done|lia..].
Qed.

Lemma year_from_1000 o y m d :
  valid_ordinal o → YEAR_1000 ≤ o → ord2ymd o = (y, m, d) → 1000 ≤ y.
Proof.
  intros Ho Hge Hymd.
  destruct (ord2ymd_spec o Ho) as (y' & m' & d' & Hymd' & Hv & Heq).
  rewrite Hymd in Hymd'. injection Hymd' as <- <- <-.
  pose proof (ymd2ord_bounds _ _ _ Hv) as Hb.
  apply valid_ymd_bounds in Hv as (Hy & _).
  destruct (Z.le_gt_cases 1000 y) as [?|Hlt]; [done|].
  pose proof (days_before_year_mono (y + 1) 1000 ltac:(lia)).
  change (days_before_year 1000) with 364877 in *.
  unfold YEAR_1000 in Hge. change (ymd2ord 1000 1 1) with 364878 in Hge. lia.
Qed.

(** ** The date range and its months *)

(** Line 101 recovers the date from the key that [daterange] made of it,
    from the year 1000 on. *)
Lemma key_date_strftime o :
  valid_ordinal o → YEAR_1000 ≤ o → key_date (strftime_ymd "T00:00:00Z" o) = Some o.
Proof.
  intros Ho Hge. destruct (ord2ymd_spec o Ho) as (y & m & d & Hymd & Hv & Ho').
  unfold key_date, strftime_ymd. rewrite Hymd.
  rewrite fmt_Y_zpad4 by (by eapply year_from_1000).
  pose proof Hv as Hv'. unfold valid_ymd, MINYEAR, MAXYEAR in Hv'.
  rewrite !andb_true_iff, !Z.leb_le in Hv'.
  destruct Hv' as (((((Hy1 & Hy2) & Hm1) & Hm2) & Hd1) & Hd2).
  pose proof (days_in_month_le_31 y m).
  rewrite split_T_0_zpad4 by lia. cbn [split_T_0 Ascii.eqb Bool.eqb].
  rewrite split_T_0_zpad2 by lia. cbn [split_T_0 Ascii.eqb Bool.eqb].
  rewrite split_T_0_zpad2 by lia. cbn [split_T_0 Ascii.eqb Bool.eqb].
  rewrite strptime_ymd by done. by rewrite Ho'.
Qed.

Lemma daterange_lookup start_date end_date (i : nat) :
  (Z.of_nat i < end_date - start_date + 1) →
  daterange start_date end_date !! i
  = Some (strftime_ymd "T00:00:00Z" (start_date + Z.of_nat i)).
Proof.
  intros Hi. unfold daterange. rewrite list_lookup_fmap, lookup_seqZ_lt by lia. done.
Qed.

Lemma length_daterange start_date end_date :
  length (daterange start_date end_date) = Z.to_nat (end_date - start_date + 1).
Proof. unfold daterange. by rewrite length_fmap, length_seqZ. Qed.

Lemma daterange_empty start_date end_date :
  end_date < start_date → daterange start_date end_date = [].
Proof. intros H. unfold daterange. by rewrite seqZ_nil by lia. Qed.

Lemma key_date_daterange start_date end_date :
  valid_ordinal start_date → valid_ordinal end_date →
  four_digit_years start_date end_date →
  key_date <$> daterange start_date end_date
  = Some <$> seqZ start_date (end_date - start_date + 1).
Proof.
  intros Hs He [Hrev|Hge].
  { unfold daterange. by rewrite !seqZ_nil by lia. }
  unfold daterange. rewrite <- list_fmap_compose.
  replace (seqZ start_date (end_date - start_date + 1))
    with (Z.add start_date <$> seqZ 0 (end_date - start_date + 1))
    by (rewrite fmap_add_seqZ; f_equal; lia).
  rewrite <- list_fmap_compose.
  apply list_fmap_ext. intros i n Hn. cbn.
  apply lookup_seqZ in Hn as [-> Hlt].
  apply key_date_strftime; unfold valid_ordinal in *; lia.
Qed.

Lemma mapM_fmap_Some' {A B} (f : A → option B) (l : list A) (k : list B) :
  f <$> l = Some <$> k → mapM f l = Some k.
Proof.
  revert k. induction l as [|a l IH]; intros [|b k] Heq; try done.
  cbn in Heq. injection Heq as Hab Hrest.
  cbn. rewrite Hab. cbn. by rewrite (IH k Hrest).
Qed.

Lemma months_of_daterange start_date end_date :
  valid_ordinal start_date → valid_ordinal end_date →
  four_digit_years start_date end_date →
  months_of (daterange start_date end_date)
  = Some (merge_sort Z.le (elements (list_to_set
            (replace_day_1 <$> seqZ start_date (end_date - start_date + 1)) : gset Z))).
Proof.
  intros Hs He Hfour. unfold months_of.
  rewrite (mapM_fmap_Some' _ _ (replace_day_1 <$> seqZ start_date (end_date - start_date + 1))).
  - done.
  - change ((fmap replace_day_1 ∘ key_date) <$> daterange start_date end_date
            = Some <$> (replace_day_1 <$> seqZ start_date (end_date - start_date + 1))).
    rewrite list_fmap_compose, key_date_daterange by done.
    rewrite <- !list_fmap_compose. done.
Qed.

Lemma StronglySorted_le_lt (l : list Z) :
  StronglySorted Z.le l → NoDup l → StronglySorted Z.lt l.
Proof.
  induction 1 as [|x l Hl IH Hx]; intros Hnd; constructor.
  - apply IH. by apply NoDup_cons_1_2 in Hnd.
  - apply NoDup_cons in Hnd as [Hnin _].
    rewrite Forall_forall in Hx |- *. intros y Hy.
    specialize (Hx y Hy).
    assert (x ≠ y) by (intros ->; by apply Hnin). lia.
Qed.

(** [sorted(set(l))]: ascending, without duplicates, the elements of [l]. *)
Lemma sorted_set_spec (l : list Z) :
  let s := merge_sort Z.le (elements (list_to_set l : gset Z)) in
  StronglySorted Z.lt s ∧ NoDup s ∧ ∀ a, a ∈ s ↔ a ∈ l.
Proof.
  cbn. set (s := merge_sort Z.le _).
  assert (Hp : s ≡ₚ elements (list_to_set l : gset Z)) by apply merge_sort_Permutation.
  assert (Hnd : NoDup s) by (rewrite Hp; apply NoDup_elements).
  split_and!; [|done|].
  - apply StronglySorted_le_lt; [|done]. apply StronglySorted_merge_sort; apply _.
  - intros a. rewrite Hp, elem_of_elements, elem_of_list_to_set. done.
Qed.

(** ** The merge of the monthly payloads *)

Section DictLemmas.
Context {V : Type}.
Implicit Types (d : list (string * V)) (k : string) (v : V).

Lemma get_set_eq k v d : Dict.get k (Dict.set k v d) = Some v.
Proof.
  induction d as [|[k' v'] d IH]; cbn.
  - by rewrite String.eqb_refl.
  - destruct (String.eqb_spec k k') as [->|Hne]; cbn.
    + by rewrite String.eqb_refl.
    + destruct (String.eqb_spec k k'); [done|]. apply IH.
Qed.

Lemma get_set_ne k k' v d : k ≠ k' → Dict.get k' (Dict.set k v d) = Dict.get k' d.
Proof.
  intros Hne. induction d as [|[k0 v0] d IH]; cbn.
  - destruct (String.eqb_spec k' k); congruence.
  - destruct (String.eqb_spec k k0) as [->|Hne0]; cbn.
    + destruct (String.eqb_spec k' k0); congruence.
    + destruct (String.eqb_spec k' k0); [done|]. apply IH.
Qed.

Lemma get_set k k' v d :
  Dict.get k' (Dict.set k v d) = if String.eqb k' k then Some v else Dict.get k' d.
Proof.
  destruct (String.eqb_spec k' k) as [->|Hne].
  - apply get_set_eq.
  - apply get_set_ne. congruence.
Qed.
End DictLemmas.

Lemma all_have_availabilities_set k r all :
  is_Some (availabilities r) → all_have_availabilities all →
  all_have_availabilities (Dict.set k r all).
Proof.
  intros Hr Hall k' r'. rewrite get_set.
  destruct (String.eqb k' k); [by intros [= <-]|apply Hall].
Qed.

(** On records that have their mapping the inner loop raises nothing and
    absorbs the records of each site in order. *)
Lemma merge_campsites_spec campsites : ∀ all,
  all_have_availabilities all →
  (∀ site_id site_data,
     (site_id, site_data) ∈ campsites → is_Some (availabilities site_data)) →
  (merge_campsites all campsites).2 = None
  ∧ all_have_availabilities (merge_campsites all campsites).1
  ∧ ∀ site_id, Dict.get site_id (merge_campsites all campsites).1
               = foldl absorb (Dict.get site_id all) (records_of site_id campsites).
Proof.
  induction campsites as [|[k info] rest IH]; intros all Hall Hwf.
  - done.
  - assert (Hinfo : is_Some (availabilities info)) by (eapply Hwf; left).
    assert (Hrest : ∀ site_id site_data,
               (site_id, site_data) ∈ rest → is_Some (availabilities site_data))
      by (intros ???; eapply Hwf; right; eassumption).
    cbn [merge_campsites].
    destruct (Dict.get k all) as [stored|] eqn:Hget.
    + destruct (Hall _ _ Hget) as [avail Havail]. rewrite Havail.
      set (stored' := SiteInfo _ _).
      destruct (IH (Dict.set k stored' all)) as (Hexc & Hall' & Hlook).
      { by apply all_have_availabilities_set. }
      { done. }
      split_and!; [done..|].
      intros site_id. rewrite Hlook, get_set. unfold records_of. cbn.
      destruct (String.eqb_spec site_id k) as [->|Hne]; [|done].
      cbn. rewrite Hget. cbn. unfold availabilities_of at 1.
      by rewrite Havail.
    + destruct (IH (Dict.set k info all)) as (Hexc & Hall' & Hlook).
      { by apply all_have_availabilities_set. }
      { done. }
      split_and!; [done..|].
      intros site_id. rewrite Hlook, get_set. unfold records_of. cbn.
      destruct (String.eqb_spec site_id k) as [->|Hne]; [|done].
      cbn. by rewrite Hget.
Qed.

(** Outside these payloads: a stored record without the key makes line 118
    raise, and the sites that follow in the same month are not merged. *)
Example stored_record_without_mapping_raises :
  merge_campsites [("1", SiteInfo (Some "A1") None)]
    [("1", SiteInfo (Some "A1") (Some {[ night2 := "Available" ]}));
     ("2", SiteInfo (Some "A2") (Some {[ night2 := "Available" ]}))]
  = ([("1", SiteInfo (Some "A1") None)], Some "'availabilities'").
Proof. reflexivity. Qed.

Lemma site_records_cons site_id response responses :
  site_records site_id (response :: responses)
  = (match response with
     | FetchError _ => []
     | FetchOk campsites => records_of site_id campsites
     end ++ site_records site_id responses)%list.
Proof. done. Qed.

Lemma well_formed_cons response responses :
  well_formed (response :: responses) →
  (∀ campsites site_id site_data,
      response = FetchOk campsites → (site_id, site_data) ∈ campsites →
      is_Some (availabilities site_data))
  ∧ well_formed responses.
Proof.
  intros Hwf. split.
  - intros campsites site_id site_data -> Hin. eapply Hwf; [left|done].
  - intros campsites site_id site_data Hin. eapply Hwf. by right.
Qed.

Lemma merge_months_spec responses : ∀ all,
  all_have_availabilities all → well_formed responses →
  all_have_availabilities (merge_months all responses)
  ∧ ∀ site_id, Dict.get site_id (merge_months all responses)
               = foldl absorb (Dict.get site_id all) (site_records site_id responses).
Proof.
  induction responses as [|response responses IH]; intros all Hall Hwf.
  - done.
  - apply well_formed_cons in Hwf as [Hhead Hwf].
    unfold merge_months. cbn [foldl]. fold (merge_months (merge_month all response).1 responses).
    destruct response as [e|campsites]; cbn [merge_month fst].
    + destruct (IH all Hall Hwf) as [? Hlook]. split; [done|].
      intros site_id. by rewrite Hlook, site_records_cons.
    + destruct (merge_campsites_spec campsites all Hall) as (_ & Hall' & Hlook').
      { intros ???. by eapply Hhead. }
      destruct (IH _ Hall' Hwf) as [? Hlook]. split; [done|].
      intros site_id. by rewrite Hlook, Hlook', site_records_cons, foldl_app.
Qed.

Lemma foldl_absorb_Some s recs :
  foldl absorb (Some s) recs
  = Some (SiteInfo (site s)
            (match recs with
             | [] => availabilities s
             | _ => Some (foldl update (availabilities_of s) (availabilities_of <$> recs))
             end)).
Proof.
  revert s. induction recs as [|r recs IH]; intros s.
  - by destruct s.
  - cbn [foldl absorb]. rewrite IH. cbn [site availabilities fmap list_fmap foldl].
    f_equal. f_equal. by destruct recs.
Qed.

Lemma update_empty m : update ∅ m = m.
Proof. unfold update. apply (right_id_L ∅ (∪)). Qed.

Lemma foldl_absorb_None first later :
  is_Some (availabilities first) →
  foldl absorb None (first :: later)
  = Some (SiteInfo (site first)
            (Some (union_later_wins (availabilities_of <$> first :: later)))).
Proof.
  intros [avail Havail]. cbn [foldl absorb]. rewrite foldl_absorb_Some.
  unfold union_later_wins. cbn [fmap list_fmap foldl]. rewrite update_empty.
  f_equal. f_equal. destruct later; [|done].
  cbn. unfold availabilities_of. by rewrite Havail.
Qed.

Lemma lookup_foldl_update_None acc (ms : list (gmap string string)) night :
  (∀ m, m ∈ ms → m !! night = None) → foldl update acc ms !! night = acc !! night.
Proof.
  revert acc. induction ms as [|m ms IH]; intros acc Hnone; [done|].
  cbn [foldl]. rewrite IH by (intros; apply Hnone; by right).
  unfold update. rewrite lookup_union_r; [done|]. apply Hnone. left.
Qed.

Lemma union_later_wins_last earlier m later night status :
  m !! night = Some status →
  (∀ m', m' ∈ later → m' !! night = None) →
  union_later_wins (earlier ++ m :: later) !! night = Some status.
Proof.
  intros Hm Hlater. unfold union_later_wins.
  rewrite foldl_app. cbn [foldl]. rewrite lookup_foldl_update_None by done.
  unfold update. by apply lookup_union_Some_l.
Qed.

Lemma union_later_wins_None ms night :
  (∀ m, m ∈ ms → m !! night = None) → union_later_wins ms !! night = None.
Proof. intros H. unfold union_later_wins. by rewrite lookup_foldl_update_None. Qed.

Lemma union_later_wins_Some ms night status :
  union_later_wins ms !! night = Some status →
  ∃ m, m ∈ ms ∧ m !! night = Some status.
Proof.
  unfold union_later_wins.
  assert (H : ∀ acc, foldl update acc ms !! night = Some status →
            acc !! night = Some status ∨ ∃ m, m ∈ ms ∧ m !! night = Some status).
  { induction ms as [|m ms IH]; intros acc Hl; [by left|].
    cbn [foldl] in Hl. destruct (IH _ Hl) as [Hacc|(m' & Hin & Hm')].
    - unfold update in Hacc. apply lookup_union_Some_raw in Hacc as [?|[_ ?]].
      + right. exists m. split; [left|done].
      + by left.
    - right. exists m'. split; [by right|done]. }
  intros Hl. destruct (H _ Hl) as [Hacc|?]; [|done].
  by rewrite lookup_empty in Hacc.
Qed.

Lemma pairwise_disjoint_Permutation ms ms' :
  ms ≡ₚ ms' → pairwise_disjoint ms → pairwise_disjoint ms'.
Proof.
  induction 1 as [|m ms ms' Hp IH|m1 m2 ms|ms1 ms2 ms3 _ IH1 _ IH2]; cbn.
  - done.
  - intros [Hm Hms]. split; [by rewrite <- Hp|by apply IH].
  - intros [[H21 H2]%Forall_cons_1 [H1 Hms]]. rewrite Forall_cons. done.
  - auto.
Qed.

(** Disjoint mappings can be merged in any order. *)
Lemma foldl_update_Permutation ms ms' :
  ms ≡ₚ ms' → pairwise_disjoint ms → ∀ acc, foldl update acc ms = foldl update acc ms'.
Proof.
  induction 1 as [|m ms ms' Hp IH|m1 m2 ms|ms1 ms2 ms3 Hp1 IH1 Hp2 IH2]; cbn.
  - done.
  - intros [_ Hms] acc. by apply IH.
  - intros [[H21 _]%Forall_cons_1 _] acc. f_equal. unfold update.
    rewrite !(assoc_L (∪)). f_equal. by apply map_union_comm.
  - intros Hpd acc. rewrite IH1 by done. apply IH2.
    by eapply pairwise_disjoint_Permutation.
Qed.

Lemma site_records_Permutation site_id responses responses' :
  responses ≡ₚ responses' →
  site_records site_id responses ≡ₚ site_records site_id responses'.
Proof. intros Hp. unfold site_records. by rewrite Hp. Qed.

Lemma well_formed_Permutation responses responses' :
  responses ≡ₚ responses' → well_formed responses → well_formed responses'.
Proof. intros Hp Hwf campsites site_id site_data Hin. apply Hwf. by rewrite Hp. Qed.

Lemma all_have_availabilities_nil : all_have_availabilities [].
Proof. by intros k r. Qed.

Lemma site_records_availabilities site_id responses r :
  well_formed responses → r ∈ site_records site_id responses → is_Some (availabilities r).
Proof.
  intros Hwf. unfold site_records. rewrite list_elem_of_bind.
  intros ([e|campsites] & Hr & Hin); [by apply elem_of_nil in Hr|].
  apply list_elem_of_omap in Hr as ([k r'] & Hk & Hsome). cbn in Hsome.
  destruct (String.eqb site_id k); [|done]. injection Hsome as ->.
  by eapply Hwf.
Qed.

Lemma get_merge_months responses site_id :
  well_formed responses →
  Dict.get site_id (merge_months [] responses)
  = match site_records site_id responses with
    | [] => None
    | first :: later =>
        Some (SiteInfo (site first)
                (Some (union_later_wins (availabilities_of <$> first :: later))))
    end.
Proof.
  intros Hwf.
  destruct (merge_months_spec responses [] all_have_availabilities_nil Hwf) as [_ ->].
  cbn [Dict.get].
  destruct (site_records site_id responses) as [|first later] eqn:Hrecs; [done|].
  apply foldl_absorb_None. eapply (site_records_availabilities site_id); [done|].
  rewrite Hrecs. left.
Qed.

Lemma merged_availabilities_Permutation responses responses' site_id :
  responses ≡ₚ responses' → well_formed responses →
  pairwise_disjoint (availabilities_of <$> site_records site_id responses) →
  Dict.get site_id (merge_months [] responses') ≫= availabilities
  = Dict.get site_id (merge_months [] responses) ≫= availabilities.
Proof.
  intros Hp Hwf Hpd.
  rewrite !get_merge_months by eauto using well_formed_Permutation.
  pose proof (site_records_Permutation site_id _ _ Hp) as Hrecs.
  destruct (site_records site_id responses) as [|f l] eqn:E,
           (site_records site_id responses') as [|f' l'] eqn:E'.
  - done.
  - by apply Permutation_nil_cons in Hrecs.
  - symmetry in Hrecs. by apply Permutation_nil_cons in Hrecs.
  - cbn [mbind option_bind availabilities]. f_equal. unfold union_later_wins.
    symmetry. apply foldl_update_Permutation; [|done]. by rewrite Hrecs.
Qed.

(** ** The handler in closed form *)

(** The classification loop: each list is extended by the labels of its
    bucket, in the order of [all_avail_data]. *)
Lemma classify_sites_spec target_dates all : ∀ fully partially idx,
  foldl (classify_site target_dates) (fully, partially, idx) all
  = ((fully ++ omap (listed_as FullyAvailable target_dates) all)%list,
     (partially ++ omap (listed_as PartiallyAvailable target_dates) all)%list,
     index_sites idx all).
Proof.
  induction all as [|[site_id site_data] all IH]; intros fully partially idx.
  - cbn. by rewrite !app_nil_r.
  - cbn [foldl]. unfold classify_site at 2, index_sites. cbn [foldl fst snd omap list_omap].
    unfold listed_as. cbn [fst snd].
    destruct (bucket_of _ _); rewrite IH; unfold index_sites;
      rewrite <- ?app_assoc; done.
Qed.

Lemma fetch_month_unfold fetch cid all st a :
  fetch_month fetch cid (all, st) a
  = let month := strftime_ymd "T00:00:00.000Z" a in
    let r := merge_month all (fetch (RECREATION_API_URL cid) month) in
    (r.1,
     State (match r.2 with
            | None => results st
            | Some e =>
                <[cid := ErrorEntry ("Failed to fetch month " +:+ month +:+ ": " +:+ e)]>
                  (results st)
            end)
           (all_sites st) (requests st ++ [(RECREATION_API_URL cid, month)])%list).
Proof. unfold fetch_month. cbn zeta. by destruct (merge_month _ _) as [? [?|]]. Qed.

(** The month loop: one request per month, in order; only the entry of
    the campground itself may change. *)
Lemma fetch_months_spec fetch cid months all st :
  (foldl (fetch_month fetch cid) (all, st) months).1
    = merge_months all (responses_of fetch cid months)
  ∧ requests (foldl (fetch_month fetch cid) (all, st) months).2
    = (requests st ++ requests_of cid months)%list
  ∧ all_sites (foldl (fetch_month fetch cid) (all, st) months).2 = all_sites st
  ∧ ∀ key, key ≠ cid →
      results (foldl (fetch_month fetch cid) (all, st) months).2 !! key = results st !! key.
Proof.
  revert all st. induction months as [|a months IH]; intros all st.
  - cbn. by rewrite app_nil_r.
  - cbn [foldl]. rewrite fetch_month_unfold. cbn zeta.
    match goal with
    | |- context [foldl _ (?all', ?st') months] =>
        destruct (IH all' st') as (H1 & H2 & H3 & H4)
    end.
    cbn [results all_sites requests] in *.
    split_and!; [done| |done|].
    + rewrite H2. by rewrite <- app_assoc.
    + intros key Hkey. rewrite H4 by done.
      destruct (merge_month _ _).2; [by rewrite lookup_insert_ne|done].
Qed.

Lemma strptime_valid s o : strptime s = Some o → valid_ordinal o.
Proof.
  unfold strptime.
  destruct (parse_Y s) as [[y s1]|]; cbn [mbind option_bind]; [|done].
  destruct (expect "-" s1) as [s2|]; cbn [mbind option_bind]; [|done].
  destruct (parse_m s2) as [[m s3]|]; cbn [mbind option_bind]; [|done].
  destruct (expect "-" s3) as [s4|]; cbn [mbind option_bind]; [|done].
  destruct (parse_d s4) as [[d s5]|]; cbn [mbind option_bind]; [|done].
  destruct s5; [|done].
  destruct (valid_ymd _ _ _) eqn:Hv; [|done]. intros H.
  injection H as <-. by apply valid_ordinal_ymd2ord.
Qed.

(** Handling a name writes one entry, under [key_of name]. *)
Lemma handle_name_spec fetch target_dates months st name :
  months_of target_dates = Some months ∨ resolve name = None →
  ∃ st', handle_name fetch target_dates st name = Some st'
    ∧ (∀ key, results st' !! key
              = if decide (key = key_of name)
                then Some (entry_of fetch target_dates months name)
                else results st !! key)
    ∧ requests st' = (requests st ++ requests_for months name)%list
    ∧ all_sites st' = index_for fetch months (all_sites st) name.
Proof.
  intros Hmonths.
  unfold handle_name, key_of, entry_of, requests_for, index_for, resolve.
  destruct (name_to_id !! lower name) as [cid|] eqn:Hid; cbn [default].
  2:{ eexists. split_and!; [done| |by rewrite app_nil_r|done].
      intros key. cbn [results]. rewrite lookup_insert.
      repeat case_decide; congruence. }
  destruct (String.eqb cid "") eqn:Hempty; cbn [default].
  { eexists. split_and!; [done| |by rewrite app_nil_r|done].
    intros key. cbn [results]. rewrite lookup_insert.
    repeat case_decide; congruence. }
  assert (Hmonths' : months_of target_dates = Some months).
  { destruct Hmonths as [?|Hr]; [done|]. unfold resolve in Hr. by rewrite Hid, Hempty in Hr. }
  rewrite Hmonths'. cbn [mbind option_bind].
  destruct (fetch_months_spec fetch cid months [] st) as (H1 & H2 & H3 & H4).
  destruct (foldl (fetch_month fetch cid) ([], st) months) as [all st1].
  cbn [fst snd] in *.
  rewrite classify_sites_spec. cbn [app].
  eexists. split_and!; [done| |done|].
  - intros key. cbn [results]. rewrite lookup_insert.
    case_decide as Hk; case_decide as Hk'; unfold id in *; try congruence.
    + unfold success_entry, campground_name_of. by rewrite H1.
    + apply H4. congruence.
  - cbn [all_sites]. by rewrite H1, H3.
Qed.

Lemma handle_names_spec fetch target_dates months names : ∀ st,
  months_known target_dates names months →
  ∃ st', handle_names fetch target_dates st names = Some st'
    ∧ (∀ key, results st' !! key
              = entry_after fetch target_dates months key (results st !! key) names)
    ∧ requests st' = (requests st ++ (names ≫= requests_for months))%list
    ∧ all_sites st' = sites_after fetch months (all_sites st) names.
Proof.
  induction names as [|name names IH]; intros st Hmonths.
  - exists st. cbn. by rewrite app_nil_r.
  - assert (Hname : months_of target_dates = Some months ∨ resolve name = None).
    { destruct Hmonths as [?|(_ & _ & Hall)]; [by left|right].
      by apply Forall_cons_1 in Hall as [? _]. }
    assert (Hrest : months_known target_dates names months).
    { destruct Hmonths as [?|(? & ? & Hall)]; [by left|right].
      by apply Forall_cons_1 in Hall as [_ ?]. }
    destruct (handle_name_spec fetch target_dates months st name Hname)
      as (st1 & Hst1 & Hres1 & Hreq1 & Hidx1).
    destruct (IH st1 Hrest) as (st' & Hst' & Hres' & Hreq' & Hidx').
    exists st'. cbn [handle_names]. rewrite Hst1. cbn [mbind option_bind].
    split_and!; [done| | |].
    + intros key. rewrite Hres'. unfold entry_after. cbn [foldl]. by rewrite Hres1.
    + rewrite Hreq', Hreq1. by rewrite <- app_assoc.
    + rewrite Hidx', Hidx1. done.
Qed.

(** Without months, a name that resolves stops the handler at line 101. *)
Lemma handle_names_Some fetch target_dates names : ∀ st st',
  handle_names fetch target_dates st names = Some st' →
  ∃ months, months_known target_dates names months.
Proof.
  destruct (months_of target_dates) as [months|] eqn:Hm.
  { intros. exists months. by left. }
  intros st st' Hst. exists []. right. split; [done|]. split; [done|]. revert st Hst.
  induction names as [|name names IH]; intros st Hst; [constructor|].
  cbn [handle_names] in Hst.
  destruct (handle_name fetch target_dates st name) as [st1|] eqn:H1; [|done].
  cbn [mbind option_bind] in Hst. constructor; [|by eapply IH].
  unfold handle_name in H1. unfold resolve.
  destruct (name_to_id !! lower name) as [cid|]; [|done].
  destruct (String.eqb cid ""); [done|]. by rewrite Hm in H1.
Qed.

(** The handler returns when the two dates parse and the months are
    known. *)
Lemma get_availability_spec fetch names startDate endDate start end_ months :
  strptime startDate = Some start → strptime endDate = Some end_ →
  months_known (daterange start end_) names months →
  ∃ aggregate,
    get_availability fetch names startDate endDate
    = Some (aggregate, names ≫= requests_for months)
    ∧ (∀ key, key ≠ "all_sites" →
         aggregate !! key
         = entry_after fetch (daterange start end_) months key None names)
    ∧ aggregate !! "all_sites" = Some (SiteIndex (sites_after fetch months ∅ names)).
Proof.
  intros Hs He Hmonths.
  destruct (handle_names_spec fetch (daterange start end_) _ names (State ∅ ∅ []) Hmonths)
    as (st' & Hst' & Hres & Hreq & Hidx).
  eexists. unfold get_availability. rewrite Hs, He. cbn [mbind option_bind].
  rewrite Hst'. cbn [mbind option_bind]. rewrite Hreq, Hidx. cbn [requests all_sites app].
  split_and!; [done| |].
  - intros key Hkey. rewrite lookup_insert_ne by done. by rewrite Hres.
  - apply lookup_insert_eq.
Qed.

(** What the handler returned. *)
Lemma get_availability_Some fetch names startDate endDate aggregate log :
  get_availability fetch names startDate endDate = Some (aggregate, log) →
  ∃ start end_ months,
    strptime startDate = Some start ∧ strptime endDate = Some end_
    ∧ months_known (daterange start end_) names months
    ∧ log = names ≫= requests_for months
    ∧ (∀ key, key ≠ "all_sites" →
         aggregate !! key
         = entry_after fetch (daterange start end_) months key None names)
    ∧ aggregate !! "all_sites" = Some (SiteIndex (sites_after fetch months ∅ names)).
Proof.
  intros Hget. pose proof Hget as Hget'. unfold get_availability in Hget'.
  destruct (strptime startDate) as [start|] eqn:Hs; [|done].
  destruct (strptime endDate) as [end_|] eqn:He; [|done].
  cbn [mbind option_bind] in Hget'.
  destruct (handle_names fetch (daterange start end_) (State ∅ ∅ []) names)
    as [st'|] eqn:Hst; [|done].
  destruct (handle_names_Some _ _ _ _ _ Hst) as [months Hmonths].
  destruct (get_availability_spec fetch names _ _ _ _ _ Hs He Hmonths)
    as (aggregate' & Hspec & Hagg & Hidx).
  rewrite Hget in Hspec. injection Hspec as -> ->.
  by exists start, end_, months.
Qed.


(** From the year 1000 on, and for a reversed range, the months are
    known. *)
Lemma months_known_daterange start end_ names :
  valid_ordinal start → valid_ordinal end_ → four_digit_years start end_ →
  ∃ months, months_of (daterange start end_) = Some months
            ∧ months_known (daterange start end_) names months.
Proof.
  intros Hs He Hfour. eexists. split; [by apply months_of_daterange|].
  left. by apply months_of_daterange.
Qed.

(** ** The classification of a site *)

Lemma startswith_spec s p : startswith s p = true ↔ ∃ rest, s = p +:+ rest.
Proof.
  unfold startswith. revert s. induction p as [|c p IH]; intros s.
  - split; [intros _; by exists s|intros _; by destruct s].
  - destruct s as [|c' s]; cbn.
    + split; [done|]. by intros [rest ?].
    + destruct (Ascii.ascii_dec c c') as [->|Hne].
      * rewrite IH. change (String c' p +:+ ?r) with (String c' (p +:+ r)).
        split; intros [rest H]; exists rest; congruence.
      * split; [done|]. intros [rest H].
        change (String c p +:+ rest) with (String c (p +:+ rest)) in H. congruence.
Qed.

Lemma is_available_spec status :
  is_available status = true
  ↔ (∃ rest, status = "Available" +:+ rest) ∨ (∃ rest, status = "Open" +:+ rest).
Proof. unfold is_available. by rewrite orb_true_iff, !startswith_spec. Qed.

Lemma lookup_site_status_of site_data target_dates date :
  site_status_of site_data target_dates !! date
  = if decide (date ∈ target_dates) then Some (status_of site_data date) else None.
Proof.
  unfold site_status_of.
  assert (H : ∀ acc : gmap string string,
    foldl (λ site_status date0,
             <[date0 := default "Missing" (default ∅ (availabilities site_data) !! date0)]>
               site_status) acc target_dates !! date
    = if decide (date ∈ target_dates) then Some (status_of site_data date) else acc !! date).
  { induction target_dates as [|d ds IH]; intros acc; [done|].
    cbn [foldl]. rewrite IH.
    destruct (decide (date ∈ ds)) as [Hin|Hnin].
    - rewrite decide_True by (by right). done.
    - destruct (decide (date = d)) as [->|Hne].
      + rewrite decide_True by left. by rewrite lookup_insert_eq.
      + rewrite decide_False by (rewrite elem_of_cons; tauto).
        by rewrite lookup_insert_ne. }
  rewrite H. by case_decide.
Qed.

Lemma available_nights_of_spec site_data target_dates :
  available_nights_of site_data target_dates
  = length (List.filter (λ date, is_available (status_of site_data date)) target_dates).
Proof.
  unfold available_nights_of. f_equal. apply filter_ext_in. intros date Hin.
  unfold lookup_total, map_lookup_total. rewrite lookup_site_status_of.
  rewrite decide_True by (by apply list_elem_of_In). done.
Qed.

Lemma available_nights_of_le site_data target_dates :
  (available_nights_of site_data target_dates ≤ length target_dates)%nat.
Proof. rewrite available_nights_of_spec. apply filter_length_le. Qed.

Lemma available_nights_of_none site_data target_dates :
  (∀ date, date ∈ target_dates → is_available (status_of site_data date) = false) →
  available_nights_of site_data target_dates = 0%nat.
Proof.
  intros H. rewrite available_nights_of_spec.
  induction target_dates as [|d ds IH]; [done|].
  cbn. rewrite H by left. apply IH. intros. apply H. by right.
Qed.

Lemma classify_site_unfold target_dates fully partially idx site_id site_data :
  classify_site target_dates (fully, partially, idx) (site_id, site_data)
  = let k := available_nights_of site_data target_dates in
    let label := summary (site_name_of site_id site_data) k in
    let idx' := <[site_id := site_name_of site_id site_data]> idx in
    match bucket_of k (length target_dates) with
    | FullyAvailable => ((fully ++ [label])%list, partially, idx')
    | PartiallyAvailable => (fully, (partially ++ [label])%list, idx')
    | NotListed => (fully, partially, idx')
    end.
Proof. done. Qed.


(** ** The aggregate *)

Section EntryAfter.
Context (fetch : upstream) (target_dates : list string) (months : list Z).

Lemma entry_after_snoc key before names name :
  entry_after fetch target_dates months key before (names ++ [name])
  = if decide (key = key_of name)
    then Some (entry_of fetch target_dates months name)
    else entry_after fetch target_dates months key before names.
Proof. unfold entry_after. by rewrite foldl_snoc. Qed.

Lemma entry_after_other key before names :
  (∀ name, name ∈ names → key_of name ≠ key) →
  entry_after fetch target_dates months key before names = before.
Proof.
  induction names as [|name names IH] using rev_ind; intros Hne; [done|].
  rewrite entry_after_snoc. rewrite decide_False.
  - apply IH. intros n Hn. apply Hne. apply elem_of_app. by left.
  - intros ->. eapply Hne; [|done]. apply elem_of_app. right. left.
Qed.

Lemma entry_after_written key e before names :
  (∃ name, name ∈ names ∧ key_of name = key) →
  (∀ name, name ∈ names → key_of name = key →
           entry_of fetch target_dates months name = e) →
  entry_after fetch target_dates months key before names = Some e.
Proof.
  induction names as [|name names IH] using rev_ind; intros (n & Hn & Hkey) Hall.
  - by apply elem_of_nil in Hn.
  - rewrite entry_after_snoc. case_decide as Hk.
    + f_equal. apply Hall; [|done]. apply elem_of_app. right. left.
    + apply IH.
      * exists n. split; [|done]. apply elem_of_app in Hn as [?|Hn]; [done|].
        apply list_elem_of_singleton in Hn as ->. congruence.
      * intros n' Hn'. apply Hall. apply elem_of_app. by left.
Qed.

Lemma entry_after_app key before names1 names2 :
  entry_after fetch target_dates months key before (names1 ++ names2)
  = entry_after fetch target_dates months key
      (entry_after fetch target_dates months key before names1) names2.
Proof. unfold entry_after. by rewrite foldl_app. Qed.

End EntryAfter.


Lemma key_of_resolved name cid : resolve name = Some cid → key_of name = cid.
Proof. unfold key_of. by intros ->. Qed.

Lemma key_of_unknown name : resolve name = None → key_of name = name.
Proof. unfold key_of. by intros ->. Qed.

Lemma name_to_id_ids :
  map_Forall (λ _ cid, cid ∈ CAMPGROUND_LOOKUP.*1) name_to_id.
Proof. apply (bool_decide_unpack _). by vm_compute. Qed.

Lemma resolve_ids name cid : resolve name = Some cid → cid ∈ CAMPGROUND_LOOKUP.*1.
Proof.
  unfold resolve. destruct (name_to_id !! lower name) as [c|] eqn:Hc; [|done].
  destruct (String.eqb c ""); [done|]. intros [= <-]. by eapply name_to_id_ids.
Qed.

Lemma resolve_not_all_sites name cid : resolve name = Some cid → cid ≠ "all_sites".
Proof.
  intros H%resolve_ids ->. revert H.
  change (¬ "all_sites" ∈ CAMPGROUND_LOOKUP.*1).
  apply (bool_decide_eq_false_1 _). by vm_compute.
Qed.

Lemma name_to_id_lookup (l : list (string * string)) : ∀ (acc : gmap string string) k,
  foldl (λ m kv, <[lower kv.2 := kv.1]> m) acc l !! k = None
  ↔ acc !! k = None ∧ ∀ kv, kv ∈ l → lower kv.2 ≠ k.
Proof.
  induction l as [|kv l IH]; intros acc k; cbn [foldl].
  - split; [|by intros [? _]]. intros ?. split; [done|]. by intros ? ?%elem_of_nil.
  - rewrite IH, lookup_insert_None. split.
    + intros [[? ?] Hl]. split; [done|]. intros kv' [->|?]%elem_of_cons; auto.
    + intros [? Hl]. split_and!; [done| |].
      * apply Hl. left.
      * intros kv' ?. apply Hl. by right.
Qed.

Lemma name_to_id_nonempty : map_Forall (λ _ cid, String.eqb cid "" = false) name_to_id.
Proof. apply (bool_decide_unpack _). by vm_compute. Qed.

Lemma resolve_None name :
  resolve name = None ↔ ∀ id v, (id, v) ∈ CAMPGROUND_LOOKUP → lower v ≠ lower name.
Proof.
  unfold resolve.
  destruct (name_to_id !! lower name) as [cid|] eqn:Hid.
  - rewrite (name_to_id_nonempty _ _ Hid). split; [done|]. intros Hno.
    assert (Hnone : name_to_id !! lower name = None); [|congruence].
    apply name_to_id_lookup. split; [done|]. intros [id v] ?. by eapply Hno.
  - split; [|done]. intros _ id v Hin.
    apply name_to_id_lookup in Hid as [_ Hl]. by apply (Hl (id, v)).
Qed.

Lemma resolve_lower name name' : lower name = lower name' → resolve name = resolve name'.
Proof. unfold resolve. by intros ->. Qed.

Lemma handle_name_no_nights fetch st name cid :
  resolve name = Some cid →
  handle_name fetch [] st name
  = Some (State (<[cid := CampgroundEntry (campground_name_of cid) [] [] []]> (results st))
            (all_sites st) (requests st)).
Proof.
  unfold resolve, handle_name.
  destruct (name_to_id !! lower name) as [c|]; [|done].
  destruct (String.eqb c ""); [done|]. intros [= ->]. by destruct st.
Qed.

Lemma union_later_wins_snoc ms m : union_later_wins (ms ++ [m]) = m ∪ union_later_wins ms.
Proof. unfold union_later_wins. by rewrite foldl_snoc. Qed.

Lemma union_later_wins_lookup recs night status :
  union_later_wins (availabilities_of <$> recs) !! night = Some status
  ↔ ∃ earlier record later,
      recs = (earlier ++ record :: later)%list
      ∧ availabilities_of record !! night = Some status
      ∧ ∀ r, r ∈ later → availabilities_of r !! night = None.
Proof.
  split.
  - induction recs as [|r recs IH] using rev_ind; [done|].
    rewrite fmap_app. change (availabilities_of <$> [r]) with [availabilities_of r].
    rewrite union_later_wins_snoc.
    intros [Hr|[Hr Hrest]]%lookup_union_Some_raw.
    + exists recs, r, []. split_and!; [done..|]. by intros ? ?%elem_of_nil.
    + destruct (IH Hrest) as (earlier & record & later & -> & Hrec & Hlater).
      exists earlier, record, (later ++ [r])%list. split_and!; [|done|].
      * by rewrite <- app_assoc.
      * intros r' [?|Hr']%elem_of_app; [auto|].
        by apply list_elem_of_singleton in Hr' as ->.
  - intros (earlier & record & later & -> & Hrec & Hlater).
    rewrite fmap_app, fmap_cons. apply union_later_wins_last; [done|].
    intros m (r & -> & Hr)%list_elem_of_fmap. by apply Hlater.
Qed.

Lemma resolve_Some name cid : resolve name = Some cid ↔ name_to_id !! lower name = Some cid.
Proof.
  unfold resolve. destruct (name_to_id !! lower name) as [c|] eqn:Hc; [|done].
  by rewrite (name_to_id_nonempty _ _ Hc).
Qed.

Lemma resolve_None_lookup name : resolve name = None ↔ name_to_id !! lower name = None.
Proof.
  unfold resolve. destruct (name_to_id !! lower name) as [c|] eqn:Hc; [|done].
  by rewrite (name_to_id_nonempty _ _ Hc).
Qed.

(** The entry under a key is the one of the last name that writes there. *)
Lemma entry_after_last fetch target_dates months key names e :
  entry_after fetch target_dates months key None names = Some e →
  ∃ before name after,
    names = (before ++ name :: after)%list ∧ key_of name = key
    ∧ e = entry_of fetch target_dates months name
    ∧ ∀ name', name' ∈ after → key_of name' ≠ key.
Proof.
  induction names as [|last names IH] using rev_ind; [done|].
  rewrite entry_after_snoc. case_decide as Hk.
  - intros [= <-]. exists names, last, []. split_and!; [done|done|done|].
    intros ? Hin. by apply elem_of_nil in Hin.
  - intros (before & name & after & -> & Hkey & -> & Hafter)%IH.
    exists before, name, (after ++ [last])%list. split_and!; [|done|done|].
    + by rewrite <- app_assoc.
    + intros name' [Hin| ->%list_elem_of_singleton]%elem_of_app; [by apply Hafter|done].
Qed.

Lemma entry_after_keeps fetch target_dates months key e names :
  (∀ name, name ∈ names → key_of name = key →
           entry_of fetch target_dates months name = e) →
  entry_after fetch target_dates months key (Some e) names = Some e.
Proof.
  induction names as [|last names IH] using rev_ind; intros Hall; [done|].
  rewrite entry_after_snoc. case_decide as Hk.
  - f_equal. apply Hall; [|done]. apply elem_of_app. right. left.
  - apply IH. intros n Hn. apply Hall. apply elem_of_app. by left.
Qed.

(** ** The properties of the specification *)

(** C1. The specification makes the entry of a campground an error payload
    under the resolved identifier, and no success payload, as soon as the
    fetch of one of its months fails. The month loop does store that error
    (first part); but it goes on with the next month, the sites are
    classified, and the success payload replaces the error: with every
    fetch failing, the aggregate holds a success payload with empty site
    lists for Camp Dick (second part). *)
Theorem month_fetch_failure_is_overwritten :
  results (foldl (fetch_month failing_fetch "232369") ([], State ∅ ∅ [])
             [ymd2ord 2025 8 1]).2 !! "232369"
  = Some (ErrorEntry
            "Failed to fetch month 2025-08-01T00:00:00.000Z: 503 Service Unavailable")
  ∧ get_availability failing_fetch ["Camp Dick"] "2025-08-01" "2025-08-02"
    = Some ({[ "232369" := CampgroundEntry "Camp Dick"
                             ["2025-08-01T00:00:00Z"; "2025-08-02T00:00:00Z"] [] [];
               "all_sites" := SiteIndex ∅ ]},
            [(RECREATION_API_URL "232369", "2025-08-01T00:00:00.000Z")]).
Proof. split; by vm_compute. Qed.



(** C3. For every requested night the classifier reads the status of the
    merged record, or ["Missing"] when the night is absent; a status counts
    as available exactly when it starts with ["Available"] or with ["Open"]
    (a prefix, case-sensitive); the count is the number of requested nights
    with such a status; and a site for which every requested night (of at
    least one) reads ["Missing"] enters neither list. *)
Theorem night_counts_as_available site_data target_dates :
  (∀ date, date ∈ target_dates →
     site_status_of site_data target_dates !! date
     = Some (default "Missing" (default ∅ (availabilities site_data) !! date)))
  ∧ (∀ status,
       is_available status = true
       ↔ (∃ rest, status = "Available" +:+ rest) ∨ (∃ rest, status = "Open" +:+ rest))
  ∧ available_nights_of site_data target_dates
    = length (List.filter
                (λ date, is_available
                           (default "Missing" (default ∅ (availabilities site_data) !! date)))
                target_dates)
  ∧ is_available "Available - Tent" = true ∧ is_available "Open" = true
  ∧ is_available "available" = false ∧ is_available "OPEN" = false
  ∧ is_available "Missing" = false
  ∧ (target_dates ≠ [] →
     (∀ date, date ∈ target_dates →
        default "Missing" (default ∅ (availabilities site_data) !! date) = "Missing") →
     ∀ fully partially idx site_id,
       classify_site target_dates (fully, partially, idx) (site_id, site_data)
       = (fully, partially, <[site_id := site_name_of site_id site_data]> idx)).
Proof.
  split_and!; try done.
  - intros date Hin. rewrite lookup_site_status_of. by rewrite decide_True.
  - apply is_available_spec.
  - apply available_nights_of_spec.
  - intros Hne Hmissing fully partially idx site_id.
    rewrite classify_site_unfold. cbn zeta.
    rewrite available_nights_of_none.
    + by destruct target_dates.
    + intros date Hin. unfold status_of. by rewrite Hmissing.
Qed.

Lemma night_counts_as_available_witness :
  let night := "2025-08-01T00:00:00Z" in
  [night] ≠ []
  ∧ classify_site [night] ([], [], ∅) ("7", SiteInfo None None)
    = ([], [], {[ "7" := "Site 7" ]}).
Proof.
  intros night.
  assert (Hne : [night] ≠ []) by done.
  split; [exact Hne|].
  refine (proj2 (proj2 (proj2 (proj2 (proj2 (proj2 (proj2 (proj2
    (night_counts_as_available (SiteInfo None None) [night])))))))) Hne _ [] [] ∅ "7").
  intros date _. reflexivity.
Defined.

(** C4. For dates [start <= end], [daterange] yields
    [(end - start).days + 1] keys; the [i]-th is the midnight timestamp of
    the date [i] days after [start]; a timestamp stands for one date only,
    so each key is that of the day after its predecessor's and the dates
    ascend strictly. From the year 1000 on, line 101 reads the date back
    from the key. *)
Theorem daterange_nights start_date end_date :
  valid_ordinal start_date → valid_ordinal end_date → start_date ≤ end_date →
  let keys := daterange start_date end_date in
  let timestamp := strftime_ymd "T00:00:00Z" in
  Z.of_nat (length keys) = (end_date - start_date) + 1
  ∧ (∀ (i : nat) key, keys !! i = Some key →
       key = timestamp (start_date + Z.of_nat i)
       ∧ valid_ordinal (start_date + Z.of_nat i))
  ∧ (∀ d d', valid_ordinal d → valid_ordinal d' → timestamp d = timestamp d' → d = d')
  ∧ (∀ (i : nat) key next, keys !! i = Some key → keys !! S i = Some next →
       ∃ d, valid_ordinal d ∧ valid_ordinal (d + 1)
            ∧ key = timestamp d ∧ next = timestamp (d + 1))
  ∧ (∀ (i j : nat) key key', (i < j)%nat → keys !! i = Some key → keys !! j = Some key' →
       ∃ d d', valid_ordinal d ∧ valid_ordinal d'
               ∧ key = timestamp d ∧ key' = timestamp d' ∧ d < d')
  ∧ (YEAR_1000 ≤ start_date →
     ∀ (i : nat) key, keys !! i = Some key →
       key_date key = Some (start_date + Z.of_nat i)).
Proof.
  intros Hs He Hle keys timestamp.
  assert (Hlen : length keys = Z.to_nat (end_date - start_date + 1))
    by apply length_daterange.
  assert (Hkey : ∀ (i : nat) key, keys !! i = Some key →
       key = timestamp (start_date + Z.of_nat i)
       ∧ valid_ordinal (start_date + Z.of_nat i)).
  { intros i key Hi. pose proof (lookup_lt_Some _ _ _ Hi) as Hlt.
    unfold keys in Hi. rewrite daterange_lookup in Hi by lia.
    injection Hi as <-. split; [done|]. unfold valid_ordinal in *. lia. }
  split_and!.
  - lia.
  - done.
  - intros d d'. apply strftime_ymd_inj.
  - intros i key next Hi Hn.
    destruct (Hkey _ _ Hi) as [-> Hv]. destruct (Hkey _ _ Hn) as [-> Hv'].
    exists (start_date + Z.of_nat i).
    replace (start_date + Z.of_nat i + 1) with (start_date + Z.of_nat (S i)) by lia.
    done.
  - intros i j key key' Hij Hi Hj.
    destruct (Hkey _ _ Hi) as [-> Hv]. destruct (Hkey _ _ Hj) as [-> Hv'].
    exists (start_date + Z.of_nat i), (start_date + Z.of_nat j).
    split_and!; [exact Hv|exact Hv'|reflexivity|reflexivity|lia].
  - intros Hge i key Hi. destruct (Hkey _ _ Hi) as [-> Hv].
    apply key_date_strftime; [done|lia].
Qed.

Lemma daterange_nights_witness :
  valid_ordinal 364876 ∧ valid_ordinal 364879 ∧ 364876 ≤ 364879
  ∧ daterange 364876 364879
    = ["999-12-30T00:00:00Z"; "999-12-31T00:00:00Z";
       "1000-01-01T00:00:00Z"; "1000-01-02T00:00:00Z"]
  ∧ Z.of_nat (length (daterange 364876 364879)) = 4.
Proof.
  assert (Hs : valid_ordinal 364876) by (unfold valid_ordinal, MAXORDINAL; lia).
  assert (He : valid_ordinal 364879) by (unfold valid_ordinal, MAXORDINAL; lia).
  assert (Hle : 364876 ≤ 364879) by lia.
  split_and!; [exact Hs|exact He|exact Hle|by vm_compute|].
  exact (proj1 (daterange_nights 364876 364879 Hs He Hle)).
Defined.

(** C5. Merging the monthly responses of a campground gives, for every
    site that occurs in some month, the union of its night-to-status
    mappings, where for a night that several months carry the last month in
    fetch order decides; a site that occurs in no month is absent. The
    responses are those in which each site record has its mapping. *)
Theorem merge_months_unions_sites responses site_id :
  well_formed responses →
  Dict.get site_id (merge_months [] responses)
  = match site_records site_id responses with
    | [] => None
    | first :: later =>
        Some (SiteInfo (site first)
                (Some (union_later_wins (availabilities_of <$> first :: later))))
    end
  ∧ ∀ night status,
      union_later_wins (availabilities_of <$> site_records site_id responses) !! night
      = Some status
      ↔ ∃ earlier record later,
          site_records site_id responses = (earlier ++ record :: later)%list
          ∧ availabilities_of record !! night = Some status
          ∧ ∀ r, r ∈ later → availabilities_of r !! night = None.
Proof.
  intros Hwf. split.
  - by apply get_merge_months.
  - intros night status. apply union_later_wins_lookup.
Qed.

Lemma well_formed_demo : well_formed [august; FetchError "timeout"; september].
Proof.
  intros campsites site_id site_data Hin Hsite.
  repeat (apply elem_of_cons in Hin as [Hin|Hin]); try done;
    try (by apply elem_of_nil in Hin); injection Hin as ->;
    repeat (apply elem_of_cons in Hsite as [Hsite|Hsite]);
    try (by apply elem_of_nil in Hsite); injection Hsite as -> ->; by eexists.
Defined.

Lemma merge_months_unions_sites_witness :
  well_formed [august; FetchError "timeout"; september]
  ∧ Dict.get "1" (merge_months [] [august; FetchError "timeout"; september])
    = Some (SiteInfo (Some "A1")
              (Some {[ night1 := "Available"; night2 := "Available" ]})).
Proof.
  split; [exact well_formed_demo|].
  rewrite (proj1 (merge_months_unions_sites _ "1" well_formed_demo)).
  by vm_compute.
Defined.

(** C9. Merging [A; B] and then [C] is merging [A; B; C]; and when no
    night key of a site occurs in two of the payloads, every order of the
    three gives each site the same night-to-status mapping. *)
Theorem merge_months_incremental A B C :
  merge_months (merge_months [] [A; B]) [C] = merge_months [] [A; B; C]
  ∧ (well_formed [A; B; C] →
     (∀ site_id,
        pairwise_disjoint (availabilities_of <$> site_records site_id [A; B; C])) →
     ∀ order site_id, order ≡ₚ [A; B; C] →
       Dict.get site_id (merge_months [] order) ≫= availabilities
       = Dict.get site_id (merge_months [] [A; B; C]) ≫= availabilities).
Proof.
  split; [done|].
  intros Hwf Hpd order site_id Hperm.
  apply merged_availabilities_Permutation; [done|done|apply Hpd].
Qed.

Lemma merge_months_incremental_witness :
  Dict.get "1" (merge_months [] [october; september_only; august]) ≫= availabilities
  = Dict.get "1" (merge_months [] [august; september_only; october]) ≫= availabilities.
Proof.
  refine (proj2 (merge_months_incremental august september_only october) _ _
            [october; september_only; august] "1" _).
  - intros campsites site_id site_data Hin Hsite.
    repeat (apply elem_of_cons in Hin as [Hin|Hin]); try (by apply elem_of_nil in Hin);
      injection Hin as ->;
      repeat (apply elem_of_cons in Hsite as [Hsite|Hsite]);
      try (by apply elem_of_nil in Hsite); injection Hsite as -> ->; by eexists.
  - intros site_id. unfold site_records, august, september_only, october.
    destruct (String.eqb_spec site_id "1") as [->|H1];
      [|destruct (String.eqb_spec site_id "2") as [->|H2];
        [|destruct (String.eqb_spec site_id "3") as [->|H3]]];
      cbn; rewrite ?(proj2 (String.eqb_neq _ _)) by done; cbn;
      repeat match goal with
             | |- _ ∧ _ => split
             | |- Forall _ [] => apply Forall_nil_2
             | |- Forall _ (_ :: _) => apply Forall_cons_2
             | |- True => exact I
             end;
      (apply map_disjoint_insert_l_2; [by vm_compute|apply map_disjoint_empty_l]).
  - etransitivity; [apply Permutation_swap|].
    etransitivity; [apply perm_skip, Permutation_swap|]. apply Permutation_swap.
Defined.





(** C7, counterexample. The name ["all_sites"] matches no campground, and
    the aggregate has no error entry for it: the site index takes its key.
    Nor has the unknown name ["232369"] when Camp Dick, whose identifier it
    is, is requested after it: the payload of Camp Dick takes its key. *)
Lemma unknown_name_without_error_entry :
  (∀ id v, (id, v) ∈ CAMPGROUND_LOOKUP → lower v ≠ lower "all_sites")
  ∧ get_availability demo_fetch ["all_sites"] "2025-08-01" "2025-08-02"
    = Some ({[ "all_sites" := SiteIndex ∅ ]}, [])
  ∧ (∀ id v, (id, v) ∈ CAMPGROUND_LOOKUP → lower v ≠ lower "232369")
  ∧ entry_at "232369"
      (get_availability demo_fetch ["232369"; "Camp Dick"] "2025-08-01" "2025-08-02")
    = Some (CampgroundEntry "Camp Dick" ["2025-08-01T00:00:00Z"; "2025-08-02T00:00:00Z"]
              ["A1 (2 nights)"] ["A2 (1 nights)"]).
Proof. split_and!; [apply resolve_None| |apply resolve_None|]; by vm_compute. Qed.

(** C7, amended. In a request that the handler answers, a requested name
    without a case-insensitive match in the directory has the error entry
    ["Unknown campground name"] under the name as supplied, exactly when
    the name is not ["all_sites"] and no name requested after it resolves
    to the campground whose identifier it is. Handling such a name writes
    that entry; so does every spelling of it that differs in case only,
    under its own spelling; and two spellings of a name of the directory
    that differ in case only are handled identically. *)
Theorem unknown_name_error_entry fetch names startDate endDate aggregate log name :
  get_availability fetch names startDate endDate = Some (aggregate, log) →
  name ∈ names →
  (∀ id v, (id, v) ∈ CAMPGROUND_LOOKUP → lower v ≠ lower name) →
  (aggregate !! name = Some (ErrorEntry "Unknown campground name")
   ↔ name ≠ "all_sites"
     ∧ ∃ before after,
         names = (before ++ name :: after)%list
         ∧ ∀ name', name' ∈ after → name_to_id !! lower name' ≠ Some name)
  ∧ (∀ target_dates st,
       handle_name fetch target_dates st name
       = Some (State (<[name := ErrorEntry "Unknown campground name"]> (results st))
                 (all_sites st) (requests st)))
  ∧ (∀ name', lower name' = lower name →
       ∀ target_dates st,
         handle_name fetch target_dates st name'
         = Some (State (<[name' := ErrorEntry "Unknown campground name"]> (results st))
                   (all_sites st) (requests st)))
  ∧ (∀ a b target_dates st, lower a = lower b → is_Some (name_to_id !! lower a) →
       handle_name fetch target_dates st a = handle_name fetch target_dates st b).
Proof.
  intros Hget Hin Hno%resolve_None.
  assert (Hunk : ∀ name' target_dates st, lower name' = lower name →
            handle_name fetch target_dates st name'
            = Some (State (<[name' := ErrorEntry "Unknown campground name"]> (results st))
                      (all_sites st) (requests st))).
  { intros name' target_dates st Hlow. unfold handle_name. rewrite Hlow.
    unfold resolve in Hno. destruct (name_to_id !! lower name) as [cid|]; [|done].
    by destruct (String.eqb cid ""). }
  split_and!; [|by intros; apply Hunk|by intros; apply Hunk|].
  2:{ intros a b target_dates st Hlow [cid Hcid]. unfold handle_name.
      rewrite <- Hlow, Hcid. by rewrite (name_to_id_nonempty _ _ Hcid). }
  destruct (get_availability_Some _ _ _ _ _ _ Hget)
    as (start & end_ & months & _ & _ & _ & _ & Hagg & Hidx).
  destruct (decide (name = "all_sites")) as [->|Hname].
  { rewrite Hidx. split; [done|]. by intros [? _]. }
  rewrite Hagg by done. split.
  - intros (before & writer & after & -> & Hkey & Hentry & Hafter)%entry_after_last.
    split; [done|].
    unfold entry_of, key_of in *. destruct (resolve writer) as [cid|] eqn:Hw; [done|].
    cbn in Hkey. subst writer. exists before, after. split; [done|].
    intros name' Hin' Hid%resolve_Some. apply (Hafter name' Hin').
    by rewrite Hid.
  - intros (_ & before & after & -> & Hafter).
    rewrite entry_after_app. change (name :: after) with ([name] ++ after)%list.
    rewrite entry_after_app.
    assert (Hself : entry_of fetch (daterange start end_) months name
                    = ErrorEntry "Unknown campground name")
      by (unfold entry_of; by rewrite Hno).
    replace (entry_after fetch (daterange start end_) months name
               (entry_after fetch (daterange start end_) months name None before) [name])
      with (Some (ErrorEntry "Unknown campground name")).
    2:{ unfold entry_after at 1. cbn [foldl].
        rewrite decide_True by (by rewrite key_of_unknown). by rewrite Hself. }
    apply entry_after_keeps. intros name' Hin' Hkey.
    unfold entry_of, key_of in *. destruct (resolve name') as [cid|] eqn:Hr; [|done].
    cbn in Hkey. subst cid. apply resolve_Some in Hr. by apply Hafter in Hr.
Qed.

Lemma unknown_name_error_entry_witness :
  entry_at "232369"
    (get_availability demo_fetch ["Camp Dick"; "232369"] "2025-08-01" "2025-08-02")
  = Some (ErrorEntry "Unknown campground name").
Proof.
  assert (Hsome : is_Some (get_availability demo_fetch ["Camp Dick"; "232369"]
                             "2025-08-01" "2025-08-02"))
    by (vm_compute; eexists; reflexivity).
  destruct Hsome as [[aggregate log] Hget].
  rewrite Hget.
  refine (proj2 (proj1 (unknown_name_error_entry demo_fetch ["Camp Dick"; "232369"]
                          "2025-08-01" "2025-08-02" aggregate log "232369" Hget _ _)) _).
  - right. left.
  - apply resolve_None. by vm_compute.
  - split; [discriminate|]. exists ["Camp Dick"], []. split; [reflexivity|].
    intros name' Hin'. apply elem_of_nil in Hin'. destruct Hin'.
Defined.

(** C8. The claim is for every valid range, but a range that reaches a
    year below 1000 has no months: [strftime] writes such a year with
    fewer than four digits, [strptime] of line 101 wants four, and the
    handler raises for a name that resolves. *)
Theorem month_anchors_raise_before_year_1000 :
  strptime "0999-12-30" = Some 364876 ∧ strptime "0999-12-31" = Some 364877
  ∧ valid_ordinal 364876 ∧ valid_ordinal 364877
  ∧ daterange 364876 364877 = ["999-12-30T00:00:00Z"; "999-12-31T00:00:00Z"]
  ∧ key_date "999-12-30T00:00:00Z" = None
  ∧ months_of (daterange 364876 364877) = None
  ∧ get_availability demo_fetch ["Camp Dick"] "0999-12-30" "0999-12-31" = None.
Proof.
  split_and!; try (by vm_compute); unfold valid_ordinal, MAXORDINAL; lia.
Qed.

(** X15. From the year 1000 on (and for a reversed range), the months
    queried for a range are strictly ascending, hence free of duplicates;
    they are exactly the first days of the months of the nights of the
    range; the requests of a campground that is handled go out in that
    order; and 2025-08-30 to 2025-09-02 gives 2025-08-01 and 2025-09-01. *)
Theorem month_anchors_of_range start_date end_date :
  valid_ordinal start_date → valid_ordinal end_date →
  four_digit_years start_date end_date →
  ∃ months,
    months_of (daterange start_date end_date) = Some months
    ∧ StronglySorted Z.lt months
    ∧ NoDup months
    ∧ (∀ anchor, anchor ∈ months
                 ↔ ∃ d, start_date ≤ d ≤ end_date ∧ anchor = replace_day_1 d)
    ∧ (∀ d, start_date ≤ d ≤ end_date →
         ∃ y m day, ord2ymd d = (y, m, day) ∧ ord2ymd (replace_day_1 d) = (y, m, 1))
    ∧ (∀ fetch st st' name campgroundId,
         name_to_id !! lower name = Some campgroundId →
         handle_name fetch (daterange start_date end_date) st name = Some st' →
         requests st'
         = (requests st
            ++ ((λ anchor, (RECREATION_API_URL campgroundId,
                            strftime_ymd "T00:00:00.000Z" anchor)) <$> months))%list)
    ∧ (strptime "2025-08-30" = Some (ymd2ord 2025 8 30)
       ∧ strptime "2025-09-02" = Some (ymd2ord 2025 9 2)
       ∧ months_of (daterange (ymd2ord 2025 8 30) (ymd2ord 2025 9 2))
         = Some [ymd2ord 2025 8 1; ymd2ord 2025 9 1]).
Proof.
  intros Hs He Hfour. eexists. split; [by apply months_of_daterange|].
  destruct (sorted_set_spec (replace_day_1 <$> seqZ start_date (end_date - start_date + 1)))
    as (Hsorted & Hnodup & Hmem).
  split_and!; [done|done| | | |by vm_compute|by vm_compute|by vm_compute].
  - intros anchor. rewrite Hmem, list_elem_of_fmap. setoid_rewrite elem_of_seqZ.
    split; intros (d & ? & ?); exists d; split; try done; lia.
  - intros d Hd. destruct (replace_day_1_spec d) as (y & m & day & ? & ? & _).
    { unfold valid_ordinal in *. lia. }
    by exists y, m, day.
  - intros fetch st st' name cid Hid Hst.
    destruct (handle_name_spec fetch _ _ st name
                (or_introl (months_of_daterange _ _ Hs He Hfour)))
      as (st'' & Hst' & _ & Hreq & _).
    rewrite Hst in Hst'. injection Hst' as <-. rewrite Hreq. f_equal.
    unfold requests_for, resolve. rewrite Hid.
    by rewrite (name_to_id_nonempty _ _ Hid).
Qed.

Lemma month_anchors_of_range_witness :
  valid_ordinal 739493 ∧ valid_ordinal 739496 ∧ four_digit_years 739493 739496
  ∧ ∃ months, months_of (daterange 739493 739496) = Some months ∧ NoDup months.
Proof.
  assert (Hs : valid_ordinal 739493) by (unfold valid_ordinal, MAXORDINAL; lia).
  assert (He : valid_ordinal 739496) by (unfold valid_ordinal, MAXORDINAL; lia).
  assert (Hfour : four_digit_years 739493 739496).
  { right. unfold YEAR_1000. change (ymd2ord 1000 1 1) with 364878. lia. }
  split_and!; [exact Hs|exact He|exact Hfour|].
  destruct (month_anchors_of_range 739493 739496 Hs He Hfour) as (months & Hm & _ & Hnd & _).
  exists months. split; [exact Hm|exact Hnd].
Defined.

(** C10. When the end date precedes the start date the handler returns: the
    list of night keys is empty, no request is sent, and handling a name
    that resolves writes a success payload with empty dates and empty site
    lists, which the aggregate holds unless the identifier itself was also
    passed as a name. *)
Theorem reversed_range_is_empty_success fetch names startDate endDate start end_ :
  strptime startDate = Some start → strptime endDate = Some end_ → end_ < start →
  daterange start end_ = []
  ∧ (∃ aggregate,
       get_availability fetch names startDate endDate = Some (aggregate, [])
       ∧ ∀ name campgroundId,
           name ∈ names → name_to_id !! lower name = Some campgroundId →
           campgroundId ∉ names →
           aggregate !! campgroundId
           = Some (CampgroundEntry
                     (default ("Campground " +:+ campgroundId)
                        (campground_lookup !! campgroundId)) [] [] []))
  ∧ (∀ st name campgroundId,
       name_to_id !! lower name = Some campgroundId →
       handle_name fetch (daterange start end_) st name
       = Some (State (<[campgroundId :=
                          CampgroundEntry
                            (default ("Campground " +:+ campgroundId)
                               (campground_lookup !! campgroundId)) [] [] []]> (results st))
                 (all_sites st) (requests st))).
Proof.
  intros Hs He Hlt.
  assert (Hempty : daterange start end_ = []) by (by apply daterange_empty).
  assert (Hres : ∀ name cid, name_to_id !! lower name = Some cid → resolve name = Some cid).
  { intros name cid Hid. unfold resolve. rewrite Hid.
    by rewrite (name_to_id_nonempty _ _ Hid). }
  split_and!; [done| |].
  - assert (Hmonths : months_known (daterange start end_) names []).
    { left. by rewrite Hempty. }
    destruct (get_availability_spec fetch names _ _ _ _ _ Hs He Hmonths)
      as (aggregate & Hget & Hagg & _).
    rewrite Hempty in Hagg.
    exists aggregate. split.
    + rewrite Hget. do 2 f_equal.
      clear. induction names as [|name names IH]; [done|].
      cbn. rewrite IH. unfold requests_for. by destruct (resolve name).
    + intros name cid Hin Hid%Hres Hnot.
      rewrite Hagg by (by eapply resolve_not_all_sites).
      apply entry_after_written.
      * exists name. split; [done|]. by apply key_of_resolved.
      * intros name' Hin' Hkey. unfold entry_of. unfold key_of in Hkey.
        destruct (resolve name') as [cid'|] eqn:Hr'; cbn in Hkey; subst.
        -- done.
        -- done.
  - intros st name cid Hid%Hres. rewrite Hempty. by apply handle_name_no_nights.
Qed.

Lemma reversed_range_is_empty_success_witness :
  strptime "2025-08-03" = Some 739466 ∧ strptime "2025-08-01" = Some 739464
  ∧ 739464 < 739466 ∧ daterange 739466 739464 = [].
Proof.
  assert (Hs : strptime "2025-08-03" = Some 739466) by (by vm_compute).
  assert (He : strptime "2025-08-01" = Some 739464) by (by vm_compute).
  assert (Hlt : 739464 < 739466) by lia.
  split_and!; [exact Hs|exact He|exact Hlt|].
  exact (proj1 (reversed_range_is_empty_success demo_fetch ["Camp Dick"] _ _ _ _ Hs He Hlt)).
Defined.

(** ** Further properties of the code *)

(** *** Night keys and months *)

(** X1. The night keys of a range are those of the range up to any day of
    it followed by those of the range from the next day on. *)
Theorem daterange_split start_date mid end_date :
  start_date - 1 ≤ mid → mid ≤ end_date →
  daterange start_date end_date
  = (daterange start_date mid ++ daterange (mid + 1) end_date)%list.
Proof.
  intros H1 H2. unfold daterange.
  replace (end_date - start_date + 1)
    with ((mid - start_date + 1) + (end_date - (mid + 1) + 1)) by lia.
  rewrite seqZ_app, fmap_app by lia. f_equal.
  replace (0 + (mid - start_date + 1)) with ((mid + 1 - start_date) + 0) by lia.
  rewrite <- (fmap_add_seqZ (mid + 1 - start_date) 0), <- list_fmap_compose.
  apply list_fmap_ext. intros _ n _. cbn. f_equal. lia.
Qed.

Lemma daterange_split_witness :
  739493 - 1 ≤ 739494 ∧ 739494 ≤ 739496
  ∧ daterange 739493 739496 = (daterange 739493 739494 ++ daterange 739495 739496)%list.
Proof.
  assert (H1 : 739493 - 1 ≤ 739494) by lia.
  assert (H2 : 739494 ≤ 739496) by lia.
  split_and!; [exact H1|exact H2|].
  exact (daterange_split 739493 739494 739496 H1 H2).
Defined.

(** X2. The night keys of a range are pairwise different. *)
Theorem daterange_NoDup start_date end_date :
  valid_ordinal start_date → valid_ordinal end_date →
  NoDup (daterange start_date end_date).
Proof.
  intros Hs He. unfold daterange.
  apply NoDup_fmap_2_strong; [|apply NoDup_seqZ].
  intros n n' Hn%elem_of_seqZ Hn'%elem_of_seqZ Heq.
  apply strftime_ymd_inj in Heq; unfold valid_ordinal in *; lia.
Qed.

Lemma daterange_NoDup_witness :
  valid_ordinal 739493 ∧ valid_ordinal 739496 ∧ NoDup (daterange 739493 739496).
Proof.
  assert (Hs : valid_ordinal 739493) by (unfold valid_ordinal, MAXORDINAL; lia).
  assert (He : valid_ordinal 739496) by (unfold valid_ordinal, MAXORDINAL; lia).
  split_and!; [exact Hs|exact He|].
  exact (daterange_NoDup 739493 739496 Hs He).
Defined.

(** A first of a month that is not after a date is not after the first of
    the month of that date. *)
Lemma first_of_month_le y m y' m' d' :
  valid_ymd y m 1 = true → valid_ymd y' m' d' = true →
  ymd2ord y m 1 ≤ ymd2ord y' m' d' → ymd2ord y m 1 ≤ ymd2ord y' m' 1.
Proof.
  intros Hv Hv' Hle.
  pose proof (ymd2ord_bounds _ _ _ Hv) as Hb.
  pose proof (ymd2ord_bounds _ _ _ Hv') as Hb'.
  pose proof (ymd2ord_bounds _ _ _ (valid_ymd_day_1 _ _ _ Hv')) as Hb1.
  apply valid_ymd_bounds in Hv as (Hy & Hm & Hd).
  apply valid_ymd_bounds in Hv' as (Hy' & Hm' & Hd').
  destruct (Z.lt_trichotomy y y') as [Hlt|[<-|Hlt]].
  - pose proof (days_before_year_mono (y + 1) y' ltac:(lia)). lia.
  - unfold ymd2ord in *.
    destruct (Z.lt_trichotomy m m') as [Hltm|[<-|Hltm]]; [|lia|].
    + pose proof (days_before_month_next y m m' ltac:(lia) Hltm ltac:(lia)).
      pose proof (days_before_month_bounds y m Hm). unfold days_in_month in *.
      assert (1 ≤ days_in_month y m) by (unfold days_in_month; lia). lia.
    + pose proof (days_before_month_next y m' m ltac:(lia) Hltm ltac:(lia)). lia.
  - pose proof (days_before_year_mono (y' + 1) y ltac:(lia)). lia.
Qed.

Lemma replace_day_1_mono d d' :
  valid_ordinal d → valid_ordinal d' → d ≤ d' → replace_day_1 d ≤ replace_day_1 d'.
Proof.
  intros Hd Hd' Hle.
  destruct (ord2ymd_spec d Hd) as (y & m & day & Hymd & Hv & Ho).
  destruct (ord2ymd_spec d' Hd') as (y' & m' & day' & Hymd' & Hv' & Ho').
  unfold replace_day_1. rewrite Hymd, Hymd'.
  apply (first_of_month_le y m y' m' day'); [by eapply valid_ymd_day_1|done|].
  rewrite Ho'. apply valid_ymd_bounds in Hv as (_ & _ & ?).
  rewrite <- Ho in Hle. unfold ymd2ord in *. lia.
Qed.

Lemma StronglySorted_lt_head (h : Z) t a :
  StronglySorted Z.lt (h :: t) → a ∈ h :: t → h ≤ a.
Proof.
  intros [Hall _]%StronglySorted_cons [->|Hin]%elem_of_cons; [lia|].
  rewrite Forall_forall in Hall. specialize (Hall _ Hin). lia.
Qed.

Lemma StronglySorted_lt_last (l : list Z) x a :
  StronglySorted Z.lt (l ++ [x])%list → a ∈ (l ++ [x])%list → a ≤ x.
Proof.
  intros Hs [Hin|Hin]%elem_of_app.
  - pose proof (StronglySorted_app_1_elem_of _ _ _ _ _ Hs Hin ltac:(left)). lia.
  - apply list_elem_of_singleton in Hin. lia.
Qed.

(** X3. The months queried for a range from the year 1000 on (or
    reversed): there is none exactly when the range is reversed; they are
    never more than the nights; they start with the month of the first
    night and end with that of the last; and a range inside one month
    queries that month alone. *)
Theorem months_of_range_bounds start_date end_date :
  valid_ordinal start_date → valid_ordinal end_date →
  four_digit_years start_date end_date →
  ∃ months,
    months_of (daterange start_date end_date) = Some months
    ∧ (months = [] ↔ end_date < start_date)
    ∧ (length months ≤ length (daterange start_date end_date))%nat
    ∧ (start_date ≤ end_date →
       head months = Some (replace_day_1 start_date)
       ∧ last months = Some (replace_day_1 end_date))
    ∧ (start_date ≤ end_date → replace_day_1 start_date = replace_day_1 end_date →
       months = [replace_day_1 start_date]).
Proof.
  intros Hs He Hfour.
  pose proof (months_of_daterange start_date end_date Hs He Hfour) as Hm.
  destruct (sorted_set_spec (replace_day_1 <$> seqZ start_date (end_date - start_date + 1)))
    as (Hsorted & Hnd & Hmem0).
  set (months := merge_sort _ _) in *. exists months. split; [done|].
  assert (Hmem : ∀ a, a ∈ months ↔ ∃ d, start_date ≤ d ≤ end_date ∧ a = replace_day_1 d).
  { intros a. rewrite Hmem0, list_elem_of_fmap. setoid_rewrite elem_of_seqZ.
    split; intros (d & ? & ?); exists d; split; try done; lia. }
  clearbody months.
  assert (Hfirst : start_date ≤ end_date → replace_day_1 start_date ∈ months).
  { intros. apply Hmem. exists start_date. split; [lia|done]. }
  assert (Hlast : start_date ≤ end_date → replace_day_1 end_date ∈ months).
  { intros. apply Hmem. exists end_date. split; [lia|done]. }
  assert (Hbetween : ∀ a, a ∈ months →
            replace_day_1 start_date ≤ a ≤ replace_day_1 end_date).
  { intros a (d & Hd & ->)%Hmem. unfold valid_ordinal in *.
    split; apply replace_day_1_mono; unfold valid_ordinal; lia. }
  assert (Hhead : start_date ≤ end_date → head months = Some (replace_day_1 start_date)).
  { intros Hle. destruct months as [|h t]; [by apply Hfirst, elem_of_nil in Hle|].
    cbn. f_equal.
    pose proof (StronglySorted_lt_head _ _ _ Hsorted (Hfirst Hle)).
    pose proof (Hbetween h ltac:(left)). lia. }
  assert (Hlst : start_date ≤ end_date → last months = Some (replace_day_1 end_date)).
  { intros Hle. destruct (last months) as [x|] eqn:Hx.
    - f_equal. pose proof Hx as (l & ->)%last_Some.
      pose proof (StronglySorted_lt_last _ _ _ Hsorted (Hlast Hle)).
      pose proof (Hbetween x ltac:(apply elem_of_app; right; left)). lia.
    - apply last_None in Hx. subst. by apply Hlast, elem_of_nil in Hle. }
  split_and!; [| |by auto|].
  - split.
    + intros ->. destruct (Z.lt_ge_cases end_date start_date) as [?|Hle]; [done|].
      by apply Hfirst, elem_of_nil in Hle.
    + intros Hlt. destruct months as [|a t]; [done|].
      assert (Ha : a ∈ a :: t) by left. apply Hmem in Ha as (d & ? & _). lia.
  - trans (length (replace_day_1 <$> seqZ start_date (end_date - start_date + 1))).
    + apply submseteq_length, NoDup_submseteq; [done|].
      intros a Ha. by apply Hmem0.
    + by rewrite length_fmap, length_seqZ, length_daterange.
  - intros Hle Heq.
    destruct months as [|h [|h' t]].
    + by apply Hfirst, elem_of_nil in Hle.
    + specialize (Hhead Hle). cbn in Hhead. congruence.
    + exfalso.
      pose proof (Hbetween h ltac:(left)).
      pose proof (Hbetween h' ltac:(right; left)).
      apply StronglySorted_cons in Hsorted as [Hall _].
      apply Forall_cons_1 in Hall as [? _]. lia.
Qed.

Lemma months_of_range_bounds_witness :
  valid_ordinal 739493 ∧ valid_ordinal 739496 ∧ four_digit_years 739493 739496
  ∧ ∃ months, months_of (daterange 739493 739496) = Some months
              ∧ (length months ≤ length (daterange 739493 739496))%nat.
Proof.
  assert (Hs : valid_ordinal 739493) by (unfold valid_ordinal, MAXORDINAL; lia).
  assert (He : valid_ordinal 739496) by (unfold valid_ordinal, MAXORDINAL; lia).
  assert (Hfour : four_digit_years 739493 739496).
  { right. unfold YEAR_1000. change (ymd2ord 1000 1 1) with 364878. lia. }
  split_and!; [exact Hs|exact He|exact Hfour|].
  destruct (months_of_range_bounds 739493 739496 Hs He Hfour)
    as (months & Hm & _ & Hlen & _).
  exists months. split; [exact Hm|exact Hlen].
Defined.

(** *** The merge of the months *)

Section DictKeys.
Context {V : Type}.
Implicit Types (d : list (string * V)) (k : string) (v : V).

Lemma get_None k d : Dict.get k d = None ↔ k ∉ d.*1.
Proof.
  induction d as [|[k' v'] d IH]; cbn.
  - split; [intros _; apply not_elem_of_nil|done].
  - rewrite not_elem_of_cons, <- IH.
    destruct (String.eqb_spec k k'); [|tauto]. split; [done|]. by intros [? _].
Qed.

Lemma get_Some_elem_of k v d : Dict.get k d = Some v → (k, v) ∈ d.
Proof.
  induction d as [|[k' v'] d IH]; cbn; [done|].
  destruct (String.eqb_spec k k') as [->|Hne].
  - intros [= ->]. left.
  - intros ?. right. auto.
Qed.

Lemma keys_set k v d : (Dict.set k v d).*1 = add_key d.*1 k.
Proof.
  unfold add_key. induction d as [|[k' v'] d IH]; cbn.
  - rewrite decide_False; [done|apply not_elem_of_nil].
  - destruct (String.eqb_spec k k') as [->|Hne]; cbn.
    + rewrite decide_True; [done|left].
    + rewrite IH. destruct (decide (k ∈ d.*1)).
      * rewrite decide_True; [done|by right].
      * rewrite decide_False; [done|]. rewrite not_elem_of_cons. done.
Qed.

Lemma length_set k v d :
  length (Dict.set k v d) = if decide (k ∈ d.*1) then length d else S (length d).
Proof.
  rewrite <- (length_fmap fst (Dict.set k v d)), keys_set. unfold add_key.
  case_decide; rewrite ?length_app, length_fmap; cbn; lia.
Qed.
End DictKeys.

Lemma add_key_NoDup keys k : NoDup keys → NoDup (add_key keys k).
Proof.
  intros Hnd. unfold add_key. case_decide; [done|].
  apply NoDup_app. split_and!; [done| |apply NoDup_singleton].
  intros x Hx ->%list_elem_of_singleton. done.
Qed.

Lemma add_key_prefix keys k : keys `prefix_of` add_key keys k.
Proof. unfold add_key. case_decide; [done|]. by apply prefix_app_r. Qed.

Lemma first_occurrences_elem_of l x : x ∈ first_occurrences l ↔ x ∈ l.
Proof.
  induction l as [|y l IH]; cbn; [done|].
  rewrite !elem_of_cons, list_elem_of_filter, IH.
  destruct (decide (x = y)); tauto.
Qed.

Lemma first_occurrences_NoDup l : NoDup (first_occurrences l).
Proof.
  induction l as [|y l IH]; cbn; [constructor|].
  constructor.
  - rewrite list_elem_of_filter. by intros [? _].
  - by apply NoDup_filter.
Qed.

Lemma foldl_add_key l : ∀ acc,
  foldl add_key acc l = (acc ++ filter (λ y, y ∉ acc) (first_occurrences l))%list.
Proof.
  induction l as [|x l IH]; intros acc; cbn [foldl first_occurrences].
  - by rewrite filter_nil, app_nil_r.
  - rewrite IH. unfold add_key. destruct (decide (x ∈ acc)) as [Hin|Hnin].
    + rewrite filter_cons_False by (by intros ?).
      rewrite list_filter_filter. f_equal.
      apply list_filter_iff. intros y. split; [|by intros [? _]].
      intros Hy. split; [done|]. by intros ->.
    + rewrite filter_cons_True by done.
      rewrite list_filter_filter, <- app_assoc. cbn. do 2 f_equal.
      apply list_filter_iff. intros y.
      rewrite elem_of_app, list_elem_of_singleton. tauto.
Qed.

Lemma first_occurrences_foldl l : foldl add_key [] l = first_occurrences l.
Proof.
  rewrite foldl_add_key. cbn.
  induction (first_occurrences l) as [|x k IH]; [done|].
  rewrite filter_cons_True by apply not_elem_of_nil. by f_equal.
Qed.

(** Without an exception the inner loop adds the keys it meets. *)
Lemma keys_merge_campsites campsites : ∀ all,
  (merge_campsites all campsites).2 = None →
  (merge_campsites all campsites).1.*1 = foldl add_key all.*1 campsites.*1.
Proof.
  induction campsites as [|[k info] rest IH]; intros all; cbn [merge_campsites]; [done|].
  destruct (Dict.get k all) as [stored|] eqn:Hget.
  - destruct (availabilities stored); [|done].
    intros Hexc. rewrite (IH _ Hexc), keys_set. done.
  - intros Hexc. rewrite (IH _ Hexc), keys_set. done.
Qed.

Lemma keys_merge_months responses : ∀ all,
  all_have_availabilities all → well_formed responses →
  (merge_months all responses).*1 = foldl add_key all.*1 (site_ids responses).
Proof.
  induction responses as [|response responses IH]; intros all Hall Hwf; [done|].
  apply well_formed_cons in Hwf as [Hhead Hwf].
  unfold merge_months. cbn [foldl].
  fold (merge_months (merge_month all response).1 responses).
  destruct response as [e|campsites]; cbn [merge_month fst].
  - by rewrite IH.
  - destruct (merge_campsites_spec campsites all Hall) as (Hexc & Hall' & _).
    { intros ???. by eapply Hhead. }
    rewrite IH by done. rewrite keys_merge_campsites by done.
    unfold site_ids. cbn [mbind list_bind]. by rewrite foldl_app.
Qed.

(** X4. The merged data of a campground lists its sites in the order in
    which the monthly payloads first mention them, each site once. *)
Theorem merged_sites_in_first_seen_order responses :
  well_formed responses →
  (merge_months [] responses).*1 = first_occurrences (site_ids responses).
Proof.
  intros Hwf. rewrite keys_merge_months by (done || apply all_have_availabilities_nil).
  apply first_occurrences_foldl.
Qed.

Lemma merged_sites_in_first_seen_order_witness :
  (merge_months [] [august; FetchError "timeout"; september; october]).*1 = ["1"; "2"; "3"].
Proof.
  rewrite merged_sites_in_first_seen_order; [reflexivity|].
  intros campsites site_id site_data Hin Hsite.
  repeat (apply elem_of_cons in Hin as [Hin|Hin]); try done;
    try (by apply elem_of_nil in Hin); injection Hin as ->;
    repeat (apply elem_of_cons in Hsite as [Hsite|Hsite]);
    try (by apply elem_of_nil in Hsite); injection Hsite as -> ->; by eexists.
Defined.

Lemma merge_campsites_keeps campsites : ∀ all,
  all.*1 `prefix_of` (merge_campsites all campsites).1.*1
  ∧ ∀ k r, Dict.get k all = Some r →
      ∃ r', Dict.get k (merge_campsites all campsites).1 = Some r'
            ∧ site r' = site r
            ∧ dom (availabilities_of r) ⊆ dom (availabilities_of r').
Proof.
  induction campsites as [|[k0 info] rest IH]; intros all; cbn [merge_campsites].
  - split; [done|]. intros k r ?. by exists r.
  - destruct (Dict.get k0 all) as [stored|] eqn:Hget.
    + destruct (availabilities stored) as [avail|] eqn:Havail.
      2:{ split; [done|]. intros k r ?. by exists r. }
      set (stored' := SiteInfo _ _).
      destruct (IH (Dict.set k0 stored' all)) as [Hpre Hkeep]. split.
      * etrans; [|exact Hpre]. rewrite keys_set. apply add_key_prefix.
      * intros k r Hk.
        destruct (String.eqb_spec k k0) as [->|Hne].
        -- destruct (Hkeep k0 stored') as (r' & Hr' & Hsite & Hdom).
           { apply get_set_eq. }
           exists r'. split; [done|]. assert (r = stored) as -> by congruence.
           split; [done|]. etrans; [|exact Hdom].
           unfold stored', availabilities_of, update. cbn. rewrite Havail. cbn.
           rewrite dom_union_L. apply union_subseteq_r.
        -- apply Hkeep. rewrite get_set_ne by done. done.
    + destruct (IH (Dict.set k0 info all)) as [Hpre Hkeep]. split.
      * etrans; [|exact Hpre]. rewrite keys_set. apply add_key_prefix.
      * intros k r Hk. apply Hkeep.
        rewrite get_set_ne; [done|]. intros <-. congruence.
Qed.

(** X5. Whatever the responses are, merging further months keeps every
    site that is already there, at its place and with its name, and keeps
    every night recorded for it. *)
Theorem merge_never_forgets all_avail_data responses :
  all_avail_data.*1 `prefix_of` (merge_months all_avail_data responses).*1
  ∧ ∀ site_id site_data,
      Dict.get site_id all_avail_data = Some site_data →
      ∃ merged,
        Dict.get site_id (merge_months all_avail_data responses) = Some merged
        ∧ site merged = site site_data
        ∧ dom (availabilities_of site_data) ⊆ dom (availabilities_of merged).
Proof.
  revert all_avail_data.
  induction responses as [|response responses IH]; intros all.
  - split; [done|]. intros k r ?. by exists r.
  - unfold merge_months. cbn [foldl].
    fold (merge_months (merge_month all response).1 responses).
    destruct (IH (merge_month all response).1) as [Hpre Hkeep].
    assert (Hstep : all.*1 `prefix_of` (merge_month all response).1.*1
              ∧ ∀ k r, Dict.get k all = Some r →
                  ∃ r', Dict.get k (merge_month all response).1 = Some r'
                        ∧ site r' = site r
                        ∧ dom (availabilities_of r) ⊆ dom (availabilities_of r')).
    { destruct response as [e|campsites]; cbn [merge_month fst].
      - split; [done|]. intros k r ?. by exists r.
      - apply merge_campsites_keeps. }
    destruct Hstep as [Hpre1 Hkeep1]. split; [by etrans|].
    intros k r Hk. destruct (Hkeep1 k r Hk) as (r1 & Hr1 & Hs1 & Hd1).
    destruct (Hkeep k r1 Hr1) as (r2 & Hr2 & Hs2 & Hd2).
    exists r2. split_and!; [done|congruence|by etrans].
Qed.

Lemma merge_never_forgets_witness :
  ∃ merged,
    Dict.get "1" (merge_months [("1", SiteInfo (Some "A1") None)] [august; september])
    = Some merged ∧ site merged = Some "A1".
Proof.
  destruct (proj2 (merge_never_forgets [("1", SiteInfo (Some "A1") None)]
                     [august; september]) "1" (SiteInfo (Some "A1") None) eq_refl)
    as (merged & Hget & Hsite & _).
  exists merged. split; [exact Hget|exact Hsite].
Defined.

(** *** Requests, errors and the directory *)

Lemma requests_for_lookup months name :
  requests_for months name
  = match name_to_id !! lower name with
    | Some campgroundId =>
        (λ anchor, (RECREATION_API_URL campgroundId,
                    strftime_ymd "T00:00:00.000Z" anchor)) <$> months
    | None => []
    end.
Proof.
  unfold requests_for. destruct (resolve name) as [cid|] eqn:Hr.
  - apply resolve_Some in Hr. by rewrite Hr.
  - apply resolve_None_lookup in Hr. by rewrite Hr.
Qed.

(** X6. The requests of a request that the handler answers: for every
    requested name that matches a campground, in the order of the
    request, one request per month of line 101, in ascending order, to the
    URL of that campground; nothing for a name that matches none. (When
    line 101 has no months, the handler answers only if no name matches,
    and sends nothing.) *)
Theorem one_request_per_campground_and_month fetch names startDate endDate aggregate log :
  get_availability fetch names startDate endDate = Some (aggregate, log) →
  ∃ start end_ months,
    strptime startDate = Some start ∧ strptime endDate = Some end_
    ∧ months_known (daterange start end_) names months
    ∧ log = names ≫= λ name,
              match name_to_id !! lower name with
              | Some campgroundId =>
                  (λ anchor, (RECREATION_API_URL campgroundId,
                              strftime_ymd "T00:00:00.000Z" anchor)) <$> months
              | None => []
              end.
Proof.
  intros Hget.
  destruct (get_availability_Some _ _ _ _ _ _ Hget)
    as (start & end_ & months & Hs & He & Hmonths & -> & _).
  exists start, end_, months. split_and!; [done..|].
  clear. induction names as [|name names IH]; [done|].
  cbn [mbind list_bind]. rewrite <- IH. f_equal. apply requests_for_lookup.
Qed.

Lemma one_request_per_campground_and_month_witness :
  snd <$> get_availability failing_fetch ["Nowhere"; "camp dick"] "2025-08-31" "2025-09-01"
  = Some [(RECREATION_API_URL "232369", "2025-08-01T00:00:00.000Z");
          (RECREATION_API_URL "232369", "2025-09-01T00:00:00.000Z")].
Proof.
  assert (Hsome : is_Some (get_availability failing_fetch ["Nowhere"; "camp dick"]
                             "2025-08-31" "2025-09-01"))
    by (vm_compute; eexists; reflexivity).
  destruct Hsome as [[aggregate log] Hget].
  rewrite Hget.
  destruct (one_request_per_campground_and_month _ _ _ _ _ _ Hget)
    as (start & end_ & months & Hs & He & [Hm|(Hm & _)] & ->).
  - vm_compute in Hs, He. injection Hs as <-. injection He as <-.
    vm_compute in Hm. injection Hm as <-. reflexivity.
  - vm_compute in Hs, He. injection Hs as <-. injection He as <-.
    vm_compute in Hm. discriminate Hm.
Defined.

Lemma entry_after_Some fetch target_dates months key names e :
  entry_after fetch target_dates months key None names = Some e →
  ∃ name, name ∈ names ∧ key = key_of name
          ∧ e = entry_of fetch target_dates months name.
Proof.
  induction names as [|name names IH] using rev_ind; [done|].
  rewrite entry_after_snoc. case_decide as Hk.
  - intros [= <-]. exists name. split; [|done]. apply elem_of_app. right. left.
  - intros (n & Hn & ? & ?)%IH. exists n. split; [|done]. apply elem_of_app. by left.
Qed.

(** X7. An error entry of the aggregate is always the one of an unknown
    name: its text is ["Unknown campground name"] and its key is a
    requested name that matches no campground. An error stored for a
    failed month never reaches the response. *)
Theorem error_entries_are_unknown_names fetch names startDate endDate start end_ key e :
  strptime startDate = Some start → strptime endDate = Some end_ →
  entry_at key (get_availability fetch names startDate endDate) = Some (ErrorEntry e) →
  e = "Unknown campground name" ∧ key ∈ names ∧ name_to_id !! lower key = None.
Proof.
  intros _ _.
  destruct (get_availability fetch names startDate endDate) as [[aggregate log]|] eqn:Hget;
    [|done].
  destruct (get_availability_Some _ _ _ _ _ _ Hget)
    as (start' & end' & months & _ & _ & _ & _ & Hagg & Hidx).
  unfold entry_at. cbn [mbind option_bind fst].
  destruct (decide (key = "all_sites")) as [->|Hkey]; [by rewrite Hidx|].
  rewrite Hagg by done. intros (name & Hin & -> & Hentry)%entry_after_Some.
  unfold entry_of, key_of in *. destruct (resolve name) as [cid|] eqn:Hr; [done|].
  injection Hentry as ->. cbn. by apply resolve_None_lookup in Hr.
Qed.

Lemma error_entries_are_unknown_names_witness :
  "Unknown campground name" = "Unknown campground name"
  ∧ "Nowhere" ∈ ["Nowhere"; "camp dick"] ∧ name_to_id !! lower "Nowhere" = None.
Proof.
  refine (error_entries_are_unknown_names failing_fetch ["Nowhere"; "camp dick"]
            "2025-08-31" "2025-09-01" 739494 739495 "Nowhere" _ eq_refl eq_refl _).
  by vm_compute.
Defined.

(** X8. [name_to_id] and [CAMPGROUND_LOOKUP] are inverse to each other: a
    name resolves to an identifier exactly when the directory lists that
    identifier with a name equal to it up to case, and the directory then
    gives the identifier its name back, so the fallback name of line 123
    is never used. *)
Theorem directory_lookup_round_trip name campgroundId :
  (name_to_id !! lower name = Some campgroundId
   ↔ ∃ v, (campgroundId, v) ∈ CAMPGROUND_LOOKUP ∧ lower v = lower name)
  ∧ (∀ v, (campgroundId, v) ∈ CAMPGROUND_LOOKUP → campground_lookup !! campgroundId = Some v).
Proof.
  assert (H1 : map_Forall (λ k cid,
                  Exists (λ iv : string * string, iv.1 = cid ∧ lower iv.2 = k)
                    CAMPGROUND_LOOKUP) name_to_id).
  { apply (bool_decide_unpack _). by vm_compute. }
  assert (H2 : Forall (λ iv : string * string,
                  name_to_id !! lower iv.2 = Some iv.1
                  ∧ campground_lookup !! iv.1 = Some iv.2) CAMPGROUND_LOOKUP).
  { apply (bool_decide_unpack _). by vm_compute. }
  rewrite Forall_forall in H2. split; [split|].
  - intros Hid. specialize (H1 _ _ Hid). apply Exists_exists in H1 as ([i v] & Hin & <- & Hlow).
    by exists v.
  - intros (v & Hin & <-). by apply (H2 (campgroundId, v)).
  - intros v Hin. by apply (H2 (campgroundId, v)).
Qed.

(** *** The site index *)

Lemma NoDup_keys_merge_campsites campsites : ∀ all,
  NoDup all.*1 → NoDup (merge_campsites all campsites).1.*1.
Proof.
  induction campsites as [|[k info] rest IH]; intros all Hnd; cbn [merge_campsites]; [done|].
  destruct (Dict.get k all) as [stored|] eqn:Hget.
  - destruct (availabilities stored); [|done].
    apply IH. rewrite keys_set. by apply add_key_NoDup.
  - apply IH. rewrite keys_set. by apply add_key_NoDup.
Qed.

Lemma NoDup_keys_merge_months responses : ∀ all,
  NoDup all.*1 → NoDup (merge_months all responses).*1.
Proof.
  induction responses as [|response responses IH]; intros all Hnd; [done|].
  unfold merge_months. cbn [foldl]. apply IH.
  destruct response as [e|campsites]; [done|]. by apply NoDup_keys_merge_campsites.
Qed.

Lemma lookup_index_sites all : ∀ idx k,
  NoDup all.*1 →
  index_sites idx all !! k
  = match Dict.get k all with
    | Some site_data => Some (site_name_of k site_data)
    | None => idx !! k
    end.
Proof.
  induction all as [|[k0 r0] all IH]; intros idx k Hnd; [done|].
  apply NoDup_cons in Hnd as [Hk0 Hnd]. cbn [fst fmap list_fmap] in Hk0.
  unfold index_sites. cbn [foldl]. fold (index_sites (<[k0:=site_name_of k0 r0]> idx) all).
  rewrite IH by done. cbn [Dict.get fst snd].
  destruct (String.eqb_spec k k0) as [->|Hne].
  - apply get_None in Hk0. rewrite Hk0. apply lookup_insert_eq.
  - destruct (Dict.get k all); [done|]. by apply lookup_insert_ne.
Qed.

Lemma sites_after_snoc fetch months idx names name :
  sites_after fetch months idx (names ++ [name])
  = index_for fetch months (sites_after fetch months idx names) name.
Proof. unfold sites_after. by rewrite foldl_app. Qed.

Lemma snoc_eq_middle {A} (names : list A) last before name after :
  (names ++ [last])%list = (before ++ name :: after)%list →
  (after = [] ∧ names = before ∧ last = name)
  ∨ ∃ after', after = (after' ++ [last])%list ∧ names = (before ++ name :: after')%list.
Proof.
  intros H. destruct after as [|a after _] using rev_ind.
  - left. apply app_inj_tail in H as [-> ->]. done.
  - right. rewrite app_comm_cons, app_assoc in H.
    apply app_inj_tail in H as [-> ->]. by exists after.
Qed.

(** The site index after the names were handled: a site carries the name
    given by the last campground of the request that knows it. *)
Lemma lookup_sites_after fetch months names site_id site_name :
  sites_after fetch months ∅ names !! site_id = Some site_name
  ↔ ∃ before name after campgroundId site_data,
      names = (before ++ name :: after)%list
      ∧ name_to_id !! lower name = Some campgroundId
      ∧ Dict.get site_id (merge_months [] (responses_of fetch campgroundId months))
        = Some site_data
      ∧ site_name = site_name_of site_id site_data
      ∧ ∀ name' campgroundId',
          name' ∈ after → name_to_id !! lower name' = Some campgroundId' →
          Dict.get site_id (merge_months [] (responses_of fetch campgroundId' months)) = None.
Proof.
  induction names as [|last names IH] using rev_ind.
  - cbn. split; [done|]. intros (before & name & after & ? & ? & Hnil & _).
    by destruct before.
  - assert (Hkeep :
      (∀ cid, name_to_id !! lower last = Some cid →
         Dict.get site_id (merge_months [] (responses_of fetch cid months)) = None) →
      (sites_after fetch months ∅ names !! site_id = Some site_name
       ↔ ∃ before name after campgroundId site_data,
           (names ++ [last])%list = (before ++ name :: after)%list
           ∧ name_to_id !! lower name = Some campgroundId
           ∧ Dict.get site_id (merge_months [] (responses_of fetch campgroundId months))
             = Some site_data
           ∧ site_name = site_name_of site_id site_data
           ∧ ∀ name' campgroundId',
               name' ∈ after → name_to_id !! lower name' = Some campgroundId' →
               Dict.get site_id
                 (merge_months [] (responses_of fetch campgroundId' months)) = None)).
    { intros Hlast_none. rewrite IH. split.
      - intros (before & name & after & cid' & site_data' & -> & Hid & Hget' & Hname & Hlast).
        exists before, name, (after ++ [last])%list, cid', site_data'.
        split_and!; try done.
        { by rewrite <- app_assoc. }
        intros name' cid'' [Hin| ->%list_elem_of_singleton]%elem_of_app Hid'.
        + by apply (Hlast name').
        + by apply Hlast_none.
      - intros (before & name & after & cid' & site_data' & Hnames & Hid & Hget' & Hname & Hlast).
        apply snoc_eq_middle in Hnames as [(-> & -> & ->)|(after' & -> & ->)].
        + rewrite (Hlast_none _ Hid) in Hget'. done.
        + exists before, name, after', cid', site_data'. split_and!; try done.
          intros name' cid'' Hin. apply Hlast. apply elem_of_app. by left. }
    rewrite sites_after_snoc. unfold index_for at 1.
    destruct (resolve last) as [cid|] eqn:Hr.
    + apply resolve_Some in Hr.
      rewrite lookup_index_sites by (apply NoDup_keys_merge_months; constructor).
      destruct (Dict.get site_id (merge_months [] (responses_of fetch cid months)))
        as [site_data|] eqn:Hget.
      * split.
        -- intros [= <-]. exists names, last, [], cid, site_data. split_and!; try done.
           intros ? ? Hin. by apply elem_of_nil in Hin.
        -- intros (before & name & after & cid' & site_data' & Hnames & Hid & Hget' & -> & Hlast).
           apply snoc_eq_middle in Hnames as [(-> & -> & ->)|(after' & -> & ->)].
           ++ congruence.
           ++ rewrite (Hlast last cid) in Hget; [done| |done].
              apply elem_of_app. right. left.
      * apply Hkeep. intros cid' Hcid'. congruence.
    + apply resolve_None_lookup in Hr. apply Hkeep. intros cid' Hcid'. congruence.
Qed.

(** X9. The site index of a request that the handler answers: a site is
    listed exactly when the merged data of a requested campground has it,
    under the name that the last such campground of the request gives it;
    unknown names add nothing. *)
Theorem site_index_last_campground_wins fetch names startDate endDate aggregate log :
  get_availability fetch names startDate endDate = Some (aggregate, log) →
  ∃ start end_ months idx,
    strptime startDate = Some start ∧ strptime endDate = Some end_
    ∧ months_known (daterange start end_) names months
    ∧ aggregate !! "all_sites" = Some (SiteIndex idx)
    ∧ ∀ site_id site_name,
        idx !! site_id = Some site_name
        ↔ ∃ before name after campgroundId site_data,
            names = (before ++ name :: after)%list
            ∧ name_to_id !! lower name = Some campgroundId
            ∧ Dict.get site_id (merge_months [] (responses_of fetch campgroundId months))
              = Some site_data
            ∧ site_name = site_name_of site_id site_data
            ∧ ∀ name' campgroundId',
                name' ∈ after → name_to_id !! lower name' = Some campgroundId' →
                Dict.get site_id
                  (merge_months [] (responses_of fetch campgroundId' months)) = None.
Proof.
  intros Hget.
  destruct (get_availability_Some _ _ _ _ _ _ Hget)
    as (start & end_ & months & Hs & He & Hmonths & _ & _ & Hidx).
  exists start, end_, months, (sites_after fetch months ∅ names).
  split_and!; [done..|].
  intros site_id site_name. apply lookup_sites_after.
Qed.

Lemma site_index_last_campground_wins_witness :
  ∃ idx,
    entry_at "all_sites"
      (get_availability demo_fetch ["Camp Dick"; "Nowhere"] "2025-08-01" "2025-08-02")
    = Some (SiteIndex idx)
    ∧ idx !! "1" = Some "A1".
Proof.
  assert (Hsome : is_Some (get_availability demo_fetch ["Camp Dick"; "Nowhere"]
                             "2025-08-01" "2025-08-02"))
    by (vm_compute; eexists; reflexivity).
  destruct Hsome as [[aggregate log] Hget].
  rewrite Hget.
  destruct (site_index_last_campground_wins _ _ _ _ _ _ Hget)
    as (start & end_ & months & idx & Hs & He & Hmonths & Hidx & Hiff).
  exists idx. split; [exact Hidx|].
  vm_compute in Hs, He. injection Hs as <-. injection He as <-.
  destruct Hmonths as [Hm|(Hm & _)]; [|vm_compute in Hm; discriminate Hm].
  vm_compute in Hm. injection Hm as <-.
  apply Hiff. exists [], "Camp Dick", ["Nowhere"], "232369".
  eexists. split_and!; [reflexivity|by vm_compute|by vm_compute|reflexivity|].
  intros name' cid' ->%list_elem_of_singleton. by vm_compute.
Defined.

(** *** The classification loop *)

Lemma available_nights_of_ext site_data site_data' target_dates :
  (∀ date, date ∈ target_dates → status_of site_data date = status_of site_data' date) →
  available_nights_of site_data target_dates = available_nights_of site_data' target_dates.
Proof.
  intros H. rewrite !available_nights_of_spec. f_equal.
  apply filter_ext_in. intros date Hin%list_elem_of_In. by rewrite H.
Qed.

(** X10. Only the name of a site and its statuses on the requested nights
    enter its classification: the other nights of the fetched months play
    no part. *)
Theorem classification_reads_requested_nights_only
    target_dates acc site_id site_data site_data' :
  site site_data = site site_data' →
  (∀ date, date ∈ target_dates → status_of site_data date = status_of site_data' date) →
  classify_site target_dates acc (site_id, site_data)
  = classify_site target_dates acc (site_id, site_data').
Proof.
  intros Hsite Hstatus. destruct acc as [[fully partially] idx].
  rewrite !classify_site_unfold. unfold site_name_of.
  by rewrite Hsite, (available_nights_of_ext _ _ _ Hstatus).
Qed.

Lemma classification_reads_requested_nights_only_witness :
  classify_site [night1] ([], [], ∅)
    ("1", SiteInfo (Some "A1") (Some {[ night1 := "Available"; night2 := "Reserved" ]}))
  = classify_site [night1] ([], [], ∅)
      ("1", SiteInfo (Some "A1") (Some {[ night1 := "Available" ]})).
Proof.
  apply classification_reads_requested_nights_only; [reflexivity|].
  intros date ->%list_elem_of_singleton. by vm_compute.
Defined.

Lemma listed_as_exclusive target_dates item :
  listed_as FullyAvailable target_dates item = None
  ∨ listed_as PartiallyAvailable target_dates item = None.
Proof. unfold listed_as. destruct (bucket_of _ _); auto. Qed.

Lemma length_listed target_dates all :
  (length (omap (listed_as FullyAvailable target_dates) all)
   + length (omap (listed_as PartiallyAvailable target_dates) all) ≤ length all)%nat.
Proof.
  induction all as [|item all IH]; cbn [omap list_omap length]; [done|].
  destruct (listed_as_exclusive target_dates item) as [-> | ->];
    destruct (listed_as _ _ item); cbn [length]; lia.
Qed.

Lemma listed_as_fully target_dates item label :
  listed_as FullyAvailable target_dates item = Some label
  ↔ available_nights_of item.2 target_dates = length target_dates
    ∧ label = summary (site_name_of item.1 item.2) (length target_dates).
Proof.
  unfold listed_as, bucket_of.
  destruct (Nat.eqb_spec (available_nights_of item.2 target_dates) (length target_dates))
    as [->|Hne].
  - split; [by intros [= <-]|by intros [_ ->]].
  - destruct (Nat.ltb _ _); split; try done; by intros [? _].
Qed.

Lemma listed_as_partially target_dates item label :
  listed_as PartiallyAvailable target_dates item = Some label
  ↔ (0 < available_nights_of item.2 target_dates < length target_dates)%nat
    ∧ label = summary (site_name_of item.1 item.2) (available_nights_of item.2 target_dates).
Proof.
  pose proof (available_nights_of_le item.2 target_dates) as Hle.
  unfold listed_as, bucket_of.
  destruct (Nat.eqb_spec (available_nights_of item.2 target_dates) (length target_dates))
    as [Heq|Hne].
  - split; [done|]. intros [? _]. lia.
  - destruct (Nat.ltb_spec 0 (available_nights_of item.2 target_dates)).
    + split; [intros [= <-]; split; [lia|done]|by intros [_ ->]].
    + split; [done|]. intros [? _]. lia.
Qed.

Lemma dom_index_sites all : ∀ idx,
  dom (index_sites idx all) = dom idx ∪ list_to_set all.*1.
Proof.
  induction all as [|[k r] all IH]; intros idx.
  - cbn. by rewrite (right_id_L ∅ (∪)).
  - unfold index_sites. cbn [foldl]. fold (index_sites (<[k:=site_name_of k r]> idx) all).
    rewrite IH, dom_insert_L. cbn [fmap list_fmap fst list_to_set].
    rewrite (comm_L (∪) {[k]} (dom idx)). by rewrite (assoc_L (∪)).
Qed.

(** X11. The classification loop of a campground: the two lists together
    hold at most one label per site; the fully available list holds the
    labels of the sites with every requested night available, the
    partially available list those of the sites with some but not all of
    them; and every site enters the site index. *)
Theorem classification_lists target_dates all_avail_data all_sites fully partially idx :
  foldl (classify_site target_dates) ([], [], all_sites) all_avail_data
  = (fully, partially, idx) →
  (length fully + length partially ≤ length all_avail_data)%nat
  ∧ (∀ label, label ∈ fully
       ↔ ∃ site_id site_data,
           (site_id, site_data) ∈ all_avail_data
           ∧ available_nights_of site_data target_dates = length target_dates
           ∧ label = summary (site_name_of site_id site_data) (length target_dates))
  ∧ (∀ label, label ∈ partially
       ↔ ∃ site_id site_data,
           (site_id, site_data) ∈ all_avail_data
           ∧ (0 < available_nights_of site_data target_dates < length target_dates)%nat
           ∧ label = summary (site_name_of site_id site_data)
                       (available_nights_of site_data target_dates))
  ∧ dom idx = dom all_sites ∪ list_to_set all_avail_data.*1.
Proof.
  rewrite classify_sites_spec. cbn [app]. intros [= <- <- <-]. split_and!.
  - apply length_listed.
  - intros label. rewrite list_elem_of_omap. split.
    + intros ([site_id site_data] & Hin & Hl%listed_as_fully).
      by exists site_id, site_data.
    + intros (site_id & site_data & Hin & Hk & Hl).
      exists (site_id, site_data). split; [done|]. by apply listed_as_fully.
  - intros label. rewrite list_elem_of_omap. split.
    + intros ([site_id site_data] & Hin & Hl%listed_as_partially).
      by exists site_id, site_data.
    + intros (site_id & site_data & Hin & Hk & Hl).
      exists (site_id, site_data). split; [done|]. by apply listed_as_partially.
  - apply dom_index_sites.
Qed.

Lemma classification_lists_witness :
  (length ["A1 (2 nights)"] + length ["A2 (1 nights)"] ≤ 2)%nat.
Proof.
  refine (proj1 (classification_lists [night1; night2]
            [("1", SiteInfo (Some "A1") (Some {[ night1 := "Available"; night2 := "Open" ]}));
             ("2", SiteInfo (Some "A2") (Some {[ night1 := "Reserved"; night2 := "Available" ]}))]
            ∅ ["A1 (2 nights)"] ["A2 (1 nights)"] _ _)).
  by vm_compute.
Defined.

(** *** The response *)

Lemma append_assoc (a b c : string) : (a +:+ b) +:+ c = a +:+ b +:+ c.
Proof.
  induction a as [|x a IH]; [done|].
  change (String x ((a +:+ b) +:+ c) = String x (a +:+ b +:+ c)). by rewrite IH.
Qed.

Lemma append_nil_r (a : string) : a +:+ "" = a.
Proof.
  induction a as [|x a IH]; [done|].
  change (String x (a +:+ "") = String x a). by rewrite IH.
Qed.

Lemma list_to_map_set (k : string) (v : entry) d :
  (list_to_map (Dict.set k v d) : gmap string entry) = <[k := v]> (list_to_map d).
Proof.
  induction d as [|[k' v'] d IH]; [done|]. cbn.
  destruct (String.eqb_spec k k') as [->|Hne]; cbn.
  - by rewrite insert_insert_eq.
  - rewrite IH. by apply insert_insert_ne.
Qed.

Lemma add_key_idemp keys k : add_key (add_key keys k) k = add_key keys k.
Proof.
  unfold add_key. destruct (decide (k ∈ keys)) as [Hin|Hnin].
  - by rewrite decide_True.
  - rewrite decide_True; [done|]. apply elem_of_app. right. left.
Qed.

Lemma fetch_month_refines fetch cid all ost a :
  let r := Ordered.fetch_month fetch cid (all, ost) a in
  fetch_month fetch cid (all, to_state ost) a = (r.1, to_state r.2)
  ∧ ((Ordered.results r.2).*1 = (Ordered.results ost).*1
     ∨ (Ordered.results r.2).*1 = add_key (Ordered.results ost).*1 cid).
Proof.
  unfold Ordered.fetch_month, fetch_month.
  cbn [results all_sites requests to_state Ordered.results Ordered.all_sites
       Ordered.requests].
  destruct (merge_month all _) as [all' [e|]]; cbn [fst snd Ordered.results].
  - split; [|right; apply keys_set].
    unfold to_state. cbn [Ordered.results Ordered.all_sites Ordered.requests].
    by rewrite list_to_map_set.
  - split; [done|by left].
Qed.

(** The month loop on the ordered state: the same as on the state it
    stands for, and the only key it may add is the identifier. *)
Lemma fetch_months_refines fetch cid months : ∀ all ost,
  let r := foldl (Ordered.fetch_month fetch cid) (all, ost) months in
  foldl (fetch_month fetch cid) (all, to_state ost) months = (r.1, to_state r.2)
  ∧ ((Ordered.results r.2).*1 = (Ordered.results ost).*1
     ∨ (Ordered.results r.2).*1 = add_key (Ordered.results ost).*1 cid).
Proof.
  induction months as [|a months IH]; intros all ost; cbn [foldl].
  - split; [done|by left].
  - destruct (fetch_month_refines fetch cid all ost a) as [H1 H2]. cbn zeta in H1, H2.
    rewrite H1.
    destruct (Ordered.fetch_month fetch cid (all, ost) a) as [all1 ost1].
    cbn [fst snd] in *.
    destruct (IH all1 ost1) as [IH1 IH2]. cbn zeta in IH1, IH2. split; [done|].
    destruct H2 as [H2|H2]; rewrite H2 in IH2; [done|].
    destruct IH2 as [-> | ->]; [by right|]. right. apply add_key_idemp.
Qed.

Lemma handle_name_refines fetch target_dates ost name :
  to_state <$> Ordered.handle_name fetch target_dates ost name
  = handle_name fetch target_dates (to_state ost) name
  ∧ ∀ ost', Ordered.handle_name fetch target_dates ost name = Some ost' →
      (Ordered.results ost').*1 = add_key (Ordered.results ost).*1 (key_of name).
Proof.
  unfold Ordered.handle_name, handle_name, key_of, resolve.
  destruct (name_to_id !! lower name) as [cid|].
  2:{ split.
      - cbn. unfold to_state. cbn. by rewrite list_to_map_set.
      - intros ost' [= <-]. cbn. apply keys_set. }
  destruct (String.eqb cid "").
  { split.
    - cbn. unfold to_state. cbn. by rewrite list_to_map_set.
    - intros ost' [= <-]. cbn. apply keys_set. }
  destruct (months_of target_dates) as [months|]; [|done].
  cbn [mbind option_bind default].
  destruct (fetch_months_refines fetch cid months [] ost) as [H1 H2].
  cbn zeta in H1, H2. rewrite H1.
  destruct (foldl (Ordered.fetch_month fetch cid) ([], ost) months) as [all ost1].
  cbn [fst snd] in *.
  change (all_sites (to_state ost1)) with (Ordered.all_sites ost1).
  destruct (foldl (classify_site target_dates) ([], [], Ordered.all_sites ost1) all)
    as [[fully partially] idx].
  split.
  - cbn. unfold to_state. cbn. by rewrite list_to_map_set.
  - intros ost' [= <-]. cbn [Ordered.results]. rewrite keys_set.
    destruct H2 as [-> | ->]; [done|apply add_key_idemp].
Qed.

Lemma handle_names_refines fetch target_dates names : ∀ ost,
  to_state <$> Ordered.handle_names fetch target_dates ost names
  = handle_names fetch target_dates (to_state ost) names
  ∧ ∀ ost', Ordered.handle_names fetch target_dates ost names = Some ost' →
      (Ordered.results ost').*1 = foldl add_key (Ordered.results ost).*1 (key_of <$> names).
Proof.
  induction names as [|name names IH]; intros ost.
  - split; [done|]. by intros ost' [= <-].
  - cbn [Ordered.handle_names handle_names fmap list_fmap foldl].
    destruct (handle_name_refines fetch target_dates ost name) as [H1 H2].
    rewrite <- H1.
    destruct (Ordered.handle_name fetch target_dates ost name) as [ost1|]; [|done].
    cbn [mbind option_bind fmap option_fmap option_map].
    destruct (IH ost1) as [IH1 IH2]. split; [done|].
    intros ost' Host'. rewrite (IH2 _ Host'). by rewrite (H2 _ eq_refl).
Qed.

Lemma first_occurrences_snoc l x :
  first_occurrences (l ++ [x]) = add_key (first_occurrences l) x.
Proof. by rewrite <- !first_occurrences_foldl, foldl_app. Qed.

Lemma collect_results_spec fetch names startDate endDate :
  list_to_map <$> Ordered.collect_results fetch names startDate endDate
  = fst <$> get_availability fetch names startDate endDate
  ∧ ∀ items,
      Ordered.collect_results fetch names startDate endDate = Some items →
      items.*1 = first_occurrences ((key_of <$> names) ++ ["all_sites"]).
Proof.
  unfold Ordered.collect_results, get_availability.
  destruct (strptime startDate) as [start|]; [|done].
  destruct (strptime endDate) as [end_|]; [|done].
  cbn [mbind option_bind].
  destruct (handle_names_refines fetch (daterange start end_) names (Ordered.State [] ∅ []))
    as [H1 H2].
  change (to_state (Ordered.State [] ∅ [])) with (State ∅ ∅ []) in H1.
  rewrite <- H1.
  destruct (Ordered.handle_names _ _ _ names) as [ost|]; [|done].
  cbn [mbind option_bind fmap option_fmap option_map fst]. split.
  - f_equal. by rewrite list_to_map_set.
  - intros items [= <-]. rewrite keys_set, (H2 _ eq_refl). cbn [Ordered.results fmap list_fmap].
    by rewrite first_occurrences_snoc, first_occurrences_foldl.
Qed.

(** X12. [results] as the insertion-ordered dictionary that the response
    is made of: its items are those of the aggregate, and its keys come in
    the order in which the request first named them, each once, with
    ["all_sites"] last unless a requested name put it earlier. *)
Theorem results_in_request_order fetch names startDate endDate items :
  Ordered.collect_results fetch names startDate endDate = Some items →
  fst <$> get_availability fetch names startDate endDate = Some (list_to_map items)
  ∧ items.*1 = first_occurrences ((key_of <$> names) ++ ["all_sites"])
  ∧ NoDup items.*1.
Proof.
  intros Hitems.
  destruct (collect_results_spec fetch names startDate endDate) as [H1 H2].
  rewrite Hitems in H1. split_and!; [done|by apply H2|].
  rewrite (H2 _ Hitems). apply first_occurrences_NoDup.
Qed.

Lemma results_in_request_order_witness :
  ∃ items,
    Ordered.collect_results demo_fetch ["Nowhere"; "camp dick"; "Nowhere"]
      "2025-08-01" "2025-08-02" = Some items
    ∧ items.*1 = ["Nowhere"; "232369"; "all_sites"].
Proof.
  destruct (Ordered.collect_results demo_fetch ["Nowhere"; "camp dick"; "Nowhere"]
              "2025-08-01" "2025-08-02") as [items|] eqn:Hitems.
  - destruct (results_in_request_order _ _ _ _ _ Hitems) as (_ & Hkeys & _).
    exists items. split; [reflexivity|]. rewrite Hkeys. vm_compute. reflexivity.
  - vm_compute in Hitems. discriminate Hitems.
Defined.

Lemma foldl_li sites : ∀ html,
  foldl (λ html site, html +:+ "<li>" +:+ site +:+ "</li>") html sites
  = html +:+ join ((λ site, "<li>" +:+ site +:+ "</li>") <$> sites).
Proof.
  induction sites as [|site sites IH]; intros html; cbn [foldl fmap list_fmap join foldr].
  - by rewrite append_nil_r.
  - rewrite IH. fold (join ((λ site, "<li>" +:+ site +:+ "</li>") <$> sites)).
    by rewrite !append_assoc.
Qed.

Lemma render_sites_spec html sites :
  Ordered.render_sites html sites = html +:+ sites_html sites.
Proof.
  destruct sites as [|site sites]; [done|].
  unfold Ordered.render_sites, sites_html. rewrite foldl_li. by rewrite !append_assoc.
Qed.

Lemma render_item_section html key info :
  key ≠ "all_sites" → shown_under key info →
  Ordered.render_item html (key, info) = Some (html +:+ section key info).
Proof.
  intros Hkey Hshown. unfold Ordered.render_item, section.
  destruct (String.eqb_spec key "all_sites") as [?|_]; [done|].
  destruct info as [error|name target_dates fully partially|idx]; [| |done].
  - cbn [Ordered.get_error Ordered.get_campground_name]. by rewrite !append_assoc.
  - destruct Hshown as [v Hv]. rewrite Hv.
    cbn [Ordered.get_error Ordered.get_campground_name default
         Ordered.get_fully_available_sites Ordered.get_partially_available_sites
         mbind option_bind].
    rewrite !render_sites_spec. by rewrite !append_assoc.
Qed.

Lemma render_items_spec items : ∀ html,
  (∀ key info, (key, info) ∈ items → key ≠ "all_sites" → shown_under key info) →
  foldl (λ html item, html ≫= λ html, Ordered.render_item html item) (Some html) items
  = Some (html +:+ join ((λ item : string * entry, section item.1 item.2)
                           <$> filter (λ item : string * entry, item.1 ≠ "all_sites") items)).
Proof.
  induction items as [|[key info] items IH]; intros html Hshown; cbn [foldl].
  - cbn. by rewrite append_nil_r.
  - cbn [mbind option_bind]. destruct (decide (key = "all_sites")) as [->|Hkey].
    + rewrite filter_cons_False by (cbn; tauto).
      change (Ordered.render_item html ("all_sites", info)) with (Some html).
      apply IH. intros k e Hin. apply Hshown. by right.
    + rewrite filter_cons_True by done.
      rewrite render_item_section; [|done|apply Hshown; [left|done]].
      rewrite IH by (intros k e Hin; apply Hshown; by right).
      cbn [fmap list_fmap join foldr fst snd]. by rewrite append_assoc.
Qed.

Lemma campground_lookup_ids name campgroundId :
  name_to_id !! name = Some campgroundId → is_Some (campground_lookup !! campgroundId).
Proof.
  assert (H : map_Forall (λ _ cid, is_Some (campground_lookup !! cid)) name_to_id).
  { apply (bool_decide_unpack _). by vm_compute. }
  apply H.
Qed.

Lemma entry_of_shown fetch target_dates months name :
  shown_under (key_of name) (entry_of fetch target_dates months name).
Proof.
  unfold key_of, entry_of. destruct (resolve name) as [cid|] eqn:Hr; [|done].
  apply resolve_Some in Hr. cbn. by apply campground_lookup_ids in Hr.
Qed.

Lemma sections_of_items (f : string → option entry) items :
  (∀ key info, (key, info) ∈ items → key ≠ "all_sites" → f key = Some info) →
  (λ item : string * entry, section item.1 item.2)
    <$> filter (λ item : string * entry, item.1 ≠ "all_sites") items
  = omap (λ key, section key <$> f key) (filter (λ key, key ≠ "all_sites") items.*1).
Proof.
  induction items as [|[key info] items IH]; intros Hf; [done|].
  cbn [fmap list_fmap fst]. destruct (decide (key = "all_sites")) as [->|Hkey].
  - rewrite !filter_cons_False by (cbn; tauto).
    apply IH. intros k e Hin. apply Hf. by right.
  - rewrite !filter_cons_True by done. cbn [fmap list_fmap omap list_omap fst snd].
    rewrite (Hf key info) by (done || left). cbn. f_equal.
    apply IH. intros k e Hin. apply Hf. by right.
Qed.

Lemma filter_add_key_ne keys k :
  filter (λ key, key ≠ k) (add_key keys k) = filter (λ key, key ≠ k) keys.
Proof.
  unfold add_key. case_decide; [done|].
  rewrite filter_app, filter_cons_False by tauto. by rewrite filter_nil, app_nil_r.
Qed.

Lemma find_own_request f_back :
  Ordered.find_request Ordered.PyNone (Ordered.own_locals :: f_back) = Ordered.PyNone.
Proof. done. Qed.

(** The page made of the items of [results]. *)
Lemma render_results_page fetch names startDate endDate items :
  Ordered.collect_results fetch names startDate endDate = Some items →
  ∃ aggregate log,
    get_availability fetch names startDate endDate = Some (aggregate, log)
    ∧ Ordered.render_html startDate endDate items
      = Some ("<html><head><title>Availability Results</title></head><body>"
                +:+ "<h1>Availability from " +:+ startDate +:+ " to " +:+ endDate
                +:+ "</h1>"
                +:+ join (omap (λ key, section key <$> aggregate !! key)
                            (section_keys names))
                +:+ "</body></html>").
Proof.
  intros Hcollect.
  destruct (collect_results_spec fetch names startDate endDate) as [H1 H2].
  rewrite Hcollect in H1. specialize (H2 _ Hcollect).
  destruct (get_availability fetch names startDate endDate) as [[aggregate log]|] eqn:Hget;
    [|done].
  injection H1 as H1. cbn [fst] in H1.
  exists aggregate, log. split; [done|].
  destruct (get_availability_Some _ _ _ _ _ _ Hget)
    as (start & end_ & months & _ & _ & _ & _ & Hagg & _).
  unfold Ordered.render_html.
  assert (Hitems : ∀ key info, (key, info) ∈ items → key ≠ "all_sites" →
            aggregate !! key = Some info).
  { intros key info Hin Hkey. rewrite <- H1.
    apply elem_of_list_to_map; [|done]. rewrite H2. apply first_occurrences_NoDup. }
  rewrite render_items_spec.
  2:{ intros key info Hin Hkey. pose proof (Hitems _ _ Hin Hkey) as Hentry.
      rewrite Hagg in Hentry by done.
      destruct (entry_after_Some _ _ _ _ _ _ Hentry) as (name & _ & -> & ->).
      apply entry_of_shown. }
  rewrite (sections_of_items _ _ Hitems), H2, first_occurrences_snoc, filter_add_key_ne.
  fold (section_keys names). cbn [mbind option_bind].
  by rewrite !append_assoc.
Qed.

(** X13. When the handler reaches line 148, it answers with the page: the
    title with the two dates as they were given, then one section for each
    key of the results other than ["all_sites"], in the order in which the
    request first named the keys, each showing the entry that the
    aggregate holds under the key. The link text of a section is the name
    of the directory for an identifier and the key itself otherwise. *)
Theorem availability_page fetch f_back names startDate endDate items :
  Ordered.collect_results fetch names startDate endDate = Some items →
  ∃ aggregate log,
    get_availability fetch names startDate endDate = Some (aggregate, log)
    ∧ Ordered.get_availability fetch f_back names startDate endDate
      = Some (Ordered.HTMLResponse
                ("<html><head><title>Availability Results</title></head><body>"
                   +:+ "<h1>Availability from " +:+ startDate +:+ " to " +:+ endDate
                   +:+ "</h1>"
                   +:+ join (omap (λ key, section key <$> aggregate !! key)
                               (section_keys names))
                   +:+ "</body></html>")).
Proof.
  intros Hitems.
  destruct (render_results_page fetch names _ _ _ Hitems) as (aggregate & log & Hget & Hpage).
  exists aggregate, log. split; [exact Hget|].
  unfold Ordered.get_availability. rewrite Hitems, find_own_request.
  cbn [mbind option_bind andb]. by rewrite Hpage.
Qed.

Lemma availability_page_witness :
  Ordered.get_availability demo_fetch
    [{[ "request" := Ordered.Request {[ "accept" := "application/json" ]} ]}]
    ["Nowhere"; "camp dick"] "2025-08-01" "2025-08-02"
  = Some (Ordered.HTMLResponse "<html><head><title>Availability Results</title></head><body><h1>Availability from 2025-08-01 to 2025-08-02</h1><h2><a href='https://www.recreation.gov/camping/campgrounds/Nowhere' target='_blank'>Nowhere</a></h2><p style='color:red;'>Unknown campground name</p><h2><a href='https://www.recreation.gov/camping/campgrounds/232369' target='_blank'>Camp Dick</a></h2><b>Fully Available Sites:</b><ul><li>A1 (2 nights)</li></ul><b>Partially Available Sites:</b><ul><li>A2 (1 nights)</li></ul></body></html>").
Proof.
  assert (Hsome : is_Some (Ordered.collect_results demo_fetch ["Nowhere"; "camp dick"]
                             "2025-08-01" "2025-08-02"))
    by (vm_compute; eexists; reflexivity).
  destruct Hsome as [items Hitems].
  destruct (availability_page demo_fetch
              [{[ "request" := Ordered.Request {[ "accept" := "application/json" ]} ]}]
              ["Nowhere"; "camp dick"] "2025-08-01" "2025-08-02" items Hitems)
    as (aggregate & log & Hget & ->).
  assert (Hagg : aggregate
                 = (default (∅, [])
                      (get_availability demo_fetch ["Nowhere"; "camp dick"]
                         "2025-08-01" "2025-08-02")).1)
    by (by rewrite Hget).
  rewrite Hagg. vm_compute. reflexivity.
Defined.

(** X14. The handler never answers with JSON, whatever the frames of its
    callers hold: the walk over the frames stops at the handler's own
    local [request], which is [None]. And neither the choice of the format
    nor the rendering raises: the handler answers exactly when it reaches
    line 148. *)
Theorem response_is_never_json fetch f_back names startDate endDate :
  (∀ content,
     Ordered.get_availability fetch f_back names startDate endDate
     ≠ Some (Ordered.JSONResponse content))
  ∧ (Ordered.get_availability fetch f_back names startDate endDate = None
     ↔ Ordered.collect_results fetch names startDate endDate = None).
Proof.
  destruct (Ordered.collect_results fetch names startDate endDate) as [items|] eqn:Hitems.
  - destruct (render_results_page fetch names _ _ _ Hitems) as (aggregate & log & _ & Hpage).
    unfold Ordered.get_availability. rewrite Hitems, find_own_request.
    cbn [mbind option_bind andb]. rewrite Hpage. split; [done|]. split; done.
  - unfold Ordered.get_availability. rewrite Hitems. split; [done|]. split; done.
Qed.
